(** * The agent executor of langchaingo (package [agents], executor.go)

    A shallow embedding of [Executor.Call] and of the functions it is made
    of ([doIteration], [checkRepeatedAction], [doAction], [getReturn],
    [inputsToString], [getNameToTool]), followed by the properties of the
    execution loop.

    The planner, the tools and the callback handler are external
    capabilities.  They are modelled as functions over an abstract [World]
    (whatever state they read and change), and every invocation of one of
    them is recorded in a trace of events, so that statements such as
    "the planner is invoked at most N times" can be written down. *)

From Stdlib Require Import ZArith String Ascii List Permutation.
From stdpp Require Import base option list gmap strings fin_maps.

Local Open Scope string_scope.
Local Open Scope list_scope.
Local Open Scope Z_scope.

(** ** Go strings: [strings.ToUpper], [strings.ToLower]

    Go strings are byte sequences.  The two functions are modelled on
    ASCII text: the letters a-z and A-Z are mapped, every other byte is
    kept. *)

Definition upper_byte (c : ascii) : ascii :=
  let n := N_of_ascii c in
  if ((97 <=? n) && (n <=? 122))%N then ascii_of_N (n - 32) else c.

Definition lower_byte (c : ascii) : ascii :=
  let n := N_of_ascii c in
  if ((65 <=? n) && (n <=? 90))%N then ascii_of_N (n + 32) else c.

Fixpoint ToUpper (s : string) : string :=
  match s with
  | EmptyString => EmptyString
  | String c s' => String (upper_byte c) (ToUpper s')
  end.

Fixpoint ToLower (s : string) : string :=
  match s with
  | EmptyString => EmptyString
  | String c s' => String (lower_byte c) (ToLower s')
  end.

(** ** Go maps

    A Go map value is either [nil] or a reference to a table.  Reading a
    nil map finds nothing; storing into a nil map panics. *)

Inductive gomap (V : Type) : Type :=
| nilmap
| mkmap (m : gmap string V).
Arguments nilmap {V}.
Arguments mkmap {V} m.

Definition go_lookup {V} (m : gomap V) (k : string) : option V :=
  match m with
  | nilmap => None
  | mkmap t => t !! k
  end.

(** [m[k] = v]; [None] stands for the run-time panic on a nil map. *)
Definition go_store {V} (m : gomap V) (k : string) (v : V) : option (gomap V) :=
  match m with
  | nilmap => None
  | mkmap t => Some (mkmap (<[k := v]> t))
  end.

(** [m != nil] *)
Definition go_notnil {V} (m : gomap V) : bool :=
  match m with
  | nilmap => false
  | mkmap _ => true
  end.

(** ** Package [schema] *)
Module schema.

(** Modelled from the spec: [schema.AgentAction], [schema.AgentStep] and
    [schema.AgentFinish] are declared outside executor.go; the fields are
    those of the spec's data model, which are those executor.go reads
    and writes. *)
Record AgentAction := mkAction {
  Tool : string;
  ToolInput : string;
  Log : string
}.

Record AgentStep := mkStep {
  Action : AgentAction;
  Observation : string
}.

(** The dynamic values a [map[string]any] holds in this program. *)
Inductive any :=
| AnyNil
| AnyString (s : string)
| AnyInt (z : Z)
| AnyBool (b : bool)
| AnySteps (steps : list AgentStep).

Record AgentFinish := mkFinish {
  ReturnValues : gomap any
}.

(** The zero value of [AgentAction], as in [AgentStep{Observation: o}]. *)
Definition zeroAction : AgentAction := mkAction "" "" "".

End schema.

Abbreviation AgentAction := schema.AgentAction.
Abbreviation AgentStep := schema.AgentStep.
Abbreviation AgentFinish := schema.AgentFinish.
Abbreviation any := schema.any.

(** [value.(string)] *)
Definition assert_string (value : any) : option string :=
  match value with
  | schema.AnyString s => Some s
  | _ => None
  end.

(** ** Errors

    The sentinel errors of package [agents], errors built by [fmt.Errorf]
    with a [%w] verb (they wrap their argument), and errors carrying only a
    message. *)
Inductive error :=
| ErrNotFinished
| ErrAgentNoReturn
| ErrUnableToParseOutput
| ErrExecutorInputNotString
| Errorf_w (wrapped : error) (msg : string)
| Errorf (msg : string).

#[global] Instance error_eq_dec : EqDecision error.
Proof. solve_decision. Defined.

(** [errors.Is err target] for a comparable target: [err] or one of the
    errors it wraps is [target]. *)
Fixpoint errors_Is (err target : error) : bool :=
  bool_decide (err = target) ||
  match err with
  | Errorf_w wrapped _ => errors_Is wrapped target
  | _ => false
  end.

(** ** Package [callbacks], package [tools], the [Agent] interface *)

Module tools.
(** Modelled from the spec: the interface [tools.Tool] is declared
    outside executor.go; its methods are [name() -> string] and
    [call(context, input) -> (observation, error)].  Of the context the
    model keeps the value stored under [StepsContextKey]. *)
Record Tool {World : Type} := mkTool {
  Name : string;
  Call : World -> list AgentStep -> string -> World * (string * option error)
}.
Arguments Tool : clear implicits.
Arguments mkTool {World} Name Call.
End tools.

Module callbacks.
(** Modelled from the spec: the interface [callbacks.Handler] is declared
    outside executor.go; the executor calls [onAction(action)] and
    [onFinish(finish, ledgerSnapshot)] of it. *)
Record Handler {World : Type} := mkHandler {
  HandleAgentAction : World -> AgentAction -> World;
  (** the second argument is what [WithExecutedSteps] carries *)
  HandleAgentFinish : World -> AgentFinish -> list AgentStep -> World
}.
Arguments Handler : clear implicits.
Arguments mkHandler {World} HandleAgentAction HandleAgentFinish.
End callbacks.

(** Modelled from the spec: [ParserErrorHandler] is declared outside
    executor.go; it carries the optional [format(rawErrorMessage) -> string]. *)
Record ParserErrorHandler := mkParserErrorHandler {
  Formatter : option (string -> string)
}.

(** Modelled from the spec: the interface [Agent] is declared outside
    executor.go; [plan(ledger, inputs)] gives actions, an optional finish
    and an error, and the agent exposes the list of its tools. *)
Record Agent {World : Type} := mkAgent {
  Plan : World -> list AgentStep -> gmap string string ->
         World * (list AgentAction * option AgentFinish * option error);
  GetTools : list (tools.Tool World)
}.
Arguments Agent : clear implicits.
Arguments mkAgent {World} Plan GetTools.

(** [Memory] is left out: [Call] does not touch it. *)
Record Executor {World : Type} := mkExecutor {
  ExAgent : Agent World;
  CallbacksHandler : option (callbacks.Handler World);
  ErrorHandler : option ParserErrorHandler;
  MaxIterations : Z;
  ReturnIntermediateSteps : bool
}.
Arguments Executor : clear implicits.
Arguments mkExecutor {World} ExAgent CallbacksHandler ErrorHandler
  MaxIterations ReturnIntermediateSteps.

(** ** Events: what the executor asks of its collaborators *)
Inductive event :=
| EvPlan (steps : list AgentStep) (inputs : gmap string string)
         (actions : list AgentAction) (finish : option AgentFinish)
         (err : option error)
| EvHandleAgentAction (action : AgentAction)
| EvToolCall (name : string) (ctxSteps : list AgentStep) (input : string)
             (observation : string) (err : option error)
| EvHandleAgentFinish (finish : AgentFinish) (executedSteps : list AgentStep).

Definition is_plan (ev : event) : bool :=
  match ev with EvPlan _ _ _ _ _ => true | _ => false end.
Definition is_tool_call (ev : event) : bool :=
  match ev with EvToolCall _ _ _ _ _ => true | _ => false end.
Definition is_on_action (ev : event) : bool :=
  match ev with EvHandleAgentAction _ => true | _ => false end.
Definition is_on_finish (ev : event) : bool :=
  match ev with EvHandleAgentFinish _ _ => true | _ => false end.

Definition count (p : event -> bool) (tr : list event) : nat :=
  length (List.filter p tr).

(** ** The monad of the executor: world passing, an event trace, panics *)
Section Monad.
Context {World : Type}.

Inductive result (A : Type) : Type :=
  | Ok (a : A) (w : World) (tr : list event)
  | Panic (w : World) (tr : list event).
Arguments Ok {A} a w tr.
Arguments Panic {A} w tr.

Definition M (A : Type) : Type := World -> result A.

Definition ret {A} (a : A) : M A := fun w => Ok a w [].

  (** [tr] happened before the computation that gave [r]. *)
Definition after {A} (tr : list event) (r : result A) : result A :=
    match r with
    | Ok a w tr' => Ok a w (tr ++ tr')
    | Panic w tr' => Panic w (tr ++ tr')
    end.

Definition bind {A B} (m : M A) (f : A -> M B) : M B :=
    fun w =>
      match m w with
      | Ok a w' tr => after tr (f a w')
      | Panic w' tr => Panic w' tr
      end.

Definition panic {A} : M A := fun w => Panic w [].

Definition trace_of {A} (r : result A) : list event :=
    match r with
    | Ok _ _ tr => tr
    | Panic _ tr => tr
    end.
End Monad.
Arguments result : clear implicits.
Arguments M : clear implicits.
Arguments Ok {World A} a w tr.
Arguments Panic {World A} w tr.

(** [o != nil] for a pointer or an error value *)
Definition is_some {A} (o : option A) : bool :=
  match o with Some _ => true | None => false end.

Notation "'do' x <- m ; k" := (bind m (fun x => k))
  (at level 10, x name, m at level 100, k at level 200).
Notation "'do' ' pat <- m ; k" :=
  (bind m (fun x => match x with pat => k end))
  (at level 10, pat pattern, m at level 100, k at level 200).
Notation "'do_' m ; k" := (bind m (fun _ => k))
  (at level 10, m at level 100, k at level 200).

(** ** Package [agents]: executor.go *)

(** The texts of the sentinel errors.  They are declared outside
    executor.go, so they are parameters here. *)
Record SentinelTexts := mkSentinelTexts {
  textNotFinished : string;
  textAgentNoReturn : string;
  textUnableToParseOutput : string;
  textExecutorInputNotString : string
}.

Definition _intermediateStepsOutputKey : string := "intermediateSteps".

Section Executor.
Context {World : Type}.
Context (texts : SentinelTexts).

Implicit Types (e : Executor World) (steps : list AgentStep)
  (action : AgentAction) (w : World) (tr : list event).

(** [err.Error()] *)
Definition Error (err : error) : string :=
  match err with
  | ErrNotFinished => textNotFinished texts
  | ErrAgentNoReturn => textAgentNoReturn texts
  | ErrUnableToParseOutput => textUnableToParseOutput texts
  | ErrExecutorInputNotString => textExecutorInputNotString texts
  | Errorf_w _ msg => msg
  | Errorf msg => msg
  end.

(** *** Calls to the collaborators, each leaving its event *)

Definition plan (a : Agent World) steps (inputs : gmap string string)
  : M World (list AgentAction * option AgentFinish * option error) :=
  fun w =>
    let '(w', (actions, finish, err)) := Plan a w steps inputs in
    Ok (actions, finish, err) w' [EvPlan steps inputs actions finish err].

Definition callTool (tool : tools.Tool World) steps (input : string)
  : M World (string * option error) :=
  fun w =>
    let '(w', (observation, err)) := tools.Call tool w steps input in
    Ok (observation, err) w'
       [EvToolCall (tools.Name tool) steps input observation err].

Definition onAction (h : callbacks.Handler World) action : M World unit :=
  fun w => Ok tt (callbacks.HandleAgentAction h w action)
              [EvHandleAgentAction action].

Definition onFinish (h : callbacks.Handler World) (finish : AgentFinish) steps
  : M World unit :=
  fun w => Ok tt (callbacks.HandleAgentFinish h w finish steps)
              [EvHandleAgentFinish finish steps].

(** *** [getReturn]

    [finish.ReturnValues[_intermediateStepsOutputKey] = steps] panics when
    the map is nil. *)
Definition getReturn e (finish : AgentFinish) steps : M World (gomap any) :=
  if ReturnIntermediateSteps e then
    match go_store (schema.ReturnValues finish)
                   _intermediateStepsOutputKey (schema.AnySteps steps) with
    | None => panic
    | Some returnValues => ret returnValues
    end
  else ret (schema.ReturnValues finish).

(** *** [checkRepeatedAction] *)

Definition repeatedStep action : AgentStep :=
  schema.mkStep action
    "ATTENTION: you are repeating the same action. Now, you have just 2 options: 1. Write the final answer. 2. Write a different action".

(** the [for _, step := range steps] of [checkRepeatedAction], over what is
    left of the range *)
Fixpoint checkRepeatedAction_range (rest steps : list AgentStep) action
  : list AgentStep * option error :=
  match rest with
  | [] => (steps, None)
  | step :: rest' =>
      if bool_decide (schema.Tool (schema.Action step) = schema.Tool action)
         && bool_decide (schema.ToolInput (schema.Action step)
                         = schema.ToolInput action)
      then (steps ++ [repeatedStep action],
            Some (Errorf ("repeated action: " +:+ schema.Tool action)))
      else checkRepeatedAction_range rest' steps action
  end.

Definition checkRepeatedAction steps action : list AgentStep * option error :=
  checkRepeatedAction_range steps steps action.

(** *** [doAction] *)

Definition finalAnswerStep action : AgentStep :=
  schema.mkStep action
    "ATTENTION: write the final answer. use the format -> Final Answer: ".

Definition invalidToolStep action : AgentStep :=
  schema.mkStep action
    (schema.Tool action +:+ " is not a valid tool, try another one").

Definition doAction e steps (nameToTool : gomap (tools.Tool World)) action
  : M World (list AgentStep * option error) :=
  do_ (match CallbacksHandler e with
       | Some h => onAction h action
       | None => ret tt
       end);
  match go_lookup nameToTool (ToUpper (schema.Tool action)) with
  | None =>
      if bool_decide (ToLower (schema.Tool action) = "none")
      then ret (steps ++ [finalAnswerStep action], None)
      else ret (steps ++ [invalidToolStep action], None)
  | Some tool =>
      do '(observation, err) <- callTool tool steps (schema.ToolInput action);
      match err with
      | Some err => ret ([], Some err)
      | None => ret (steps ++ [schema.mkStep action observation], None)
      end
  end.

(** *** [doIteration] *)

(** the [for _, action := range actions] of [doIteration] *)
Fixpoint doIteration_actions e (nameToTool : gomap (tools.Tool World))
    (actions : list AgentAction) steps
  : M World (list AgentStep * gomap any * option error) :=
  match actions with
  | [] => ret (steps, nilmap, None)
  | action :: actions' =>
      let '(steps, err) := checkRepeatedAction steps action in
      match err with
      | Some _ => ret (steps, nilmap, None)
      | None =>
          do '(steps, err) <- doAction e steps nameToTool action;
          match err with
          | Some err => ret (steps, nilmap, Some err)
          | None => doIteration_actions e nameToTool actions' steps
          end
      end
  end.

(** [errors.Is(err, ErrUnableToParseOutput) && e.ErrorHandler != nil],
    giving the error and the handler when it holds *)
Definition recoverable e (err : option error)
  : option (error * ParserErrorHandler) :=
  match err, ErrorHandler e with
  | Some err, Some handler =>
      if errors_Is err ErrUnableToParseOutput then Some (err, handler)
      else None
  | _, _ => None
  end.

Definition doIteration e steps (nameToTool : gomap (tools.Tool World))
    (inputs : gmap string string)
  : M World (list AgentStep * gomap any * option error) :=
  do '(actions, finish, err) <- plan (ExAgent e) steps inputs;
  match recoverable e err with
  | Some (err, handler) =>
      let formattedObservation := Error err in
      let formattedObservation :=
        match Formatter handler with
        | Some format => format formattedObservation
        | None => formattedObservation
        end in
      ret (steps ++ [schema.mkStep schema.zeroAction formattedObservation],
           nilmap, None)
  | None =>
      match err with
      | Some err => ret (steps, nilmap, Some err)
      | None =>
          if (length actions =? 0)%nat && negb (is_some finish)
          then ret (steps, nilmap, Some ErrAgentNoReturn)
          else
            match finish with
            | Some finish =>
                do_ (match CallbacksHandler e with
                     | Some h => onFinish h finish steps
                     | None => ret tt
                     end);
                do returnValues <- getReturn e finish steps;
                ret (steps, returnValues, None)
            | None => doIteration_actions e nameToTool actions steps
            end
      end
  end.

(** *** [inputsToString]

    The argument is the map given as the sequence of its entries in the
    order in which [range] visits them (any order, see [ranges]). *)
Fixpoint inputsToString_range (inputValues : list (string * any))
    (inputs : gmap string string) : gmap string string + error :=
  match inputValues with
  | [] => inl inputs
  | (key, value) :: inputValues' =>
      match assert_string value with
      | None =>
          inr (Errorf_w ErrExecutorInputNotString
                 (Error ErrExecutorInputNotString +:+ ": " +:+ key))
      | Some valueStr => inputsToString_range inputValues' (<[key := valueStr]> inputs)
      end
  end.

Definition inputsToString (inputValues : list (string * any))
  : gmap string string + error :=
  inputsToString_range inputValues ∅.

(** *** [getNameToTool] *)
Definition getNameToTool (t : list (tools.Tool World))
  : gomap (tools.Tool World) :=
  if (length t =? 0)%nat then nilmap
  else mkmap (foldl (fun nameToTool tool =>
                       <[ToUpper (tools.Name tool) := tool]> nameToTool) ∅ t).

(** *** [Call] *)

Definition lastChanceStep : AgentStep :=
  schema.mkStep schema.zeroAction
    (String "010"%char " Important: Do you have enough data to answer? Provide the final answer " +:+ String "010"%char "").

(** the [if] that ends the body of the loop of [Call] *)
Definition lastChance e (i : Z) steps : list AgentStep :=
  if (2 <? MaxIterations e) && (i =? MaxIterations e - 2)
  then steps ++ [lastChanceStep] else steps.

(** The [for i := 0; i < e.MaxIterations; i++] of [Call], over the values
    [i] still has to take.  [inr (finish, err)] is the [return] inside the
    loop, [inl steps] is leaving the loop at its end. *)
Fixpoint Call_for e (nameToTool : gomap (tools.Tool World))
    (inputs : gmap string string) (range : list Z) steps
  : M World (list AgentStep + gomap any * option error) :=
  match range with
  | [] => ret (inl steps)
  | i :: range' =>
      do '(steps, finish, err) <- doIteration e steps nameToTool inputs;
      if go_notnil finish || is_some err then ret (inr (finish, err))
      else Call_for e nameToTool inputs range' (lastChance e i steps)
  end.

Definition notFinishedFinish : AgentFinish :=
  schema.mkFinish
    (mkmap {[ "output" := schema.AnyString (Error ErrNotFinished) ]}).

Definition Call e (inputValues : list (string * any))
  : M World (gomap any * option error) :=
  match inputsToString inputValues with
  | inr err => ret (nilmap, Some err)
  | inl inputs =>
      let nameToTool := getNameToTool (GetTools (ExAgent e)) in
      do r <- Call_for e nameToTool inputs (seqZ 0 (MaxIterations e)) [];
      match r with
      | inr (finish, err) => ret (finish, err)
      | inl steps =>
          do_ (match CallbacksHandler e with
               | Some h => onFinish h notFinishedFinish steps
               | None => ret tt
               end);
          do returnValues <- getReturn e (schema.mkFinish (mkmap ∅)) steps;
          ret (returnValues, Some ErrNotFinished)
      end
  end.

End Executor.

(** * The thinking transport of package [googleai] (new.go)

    [thinkingTransport.RoundTrip] rewrites the JSON body of the requests
    to a generateContent endpoint and hands every request on to its base
    transport. *)

(** ** Go strings: [strings.Contains] *)

Fixpoint HasPrefix (s prefix : string) {struct prefix} : bool :=
  match prefix, s with
  | EmptyString, _ => true
  | String c prefix', String d s' => Ascii.eqb c d && HasPrefix s' prefix'
  | String _ _, EmptyString => false
  end.

Fixpoint Contains (s substr : string) : bool :=
  HasPrefix s substr ||
  match s with
  | EmptyString => false
  | String _ s' => Contains s' substr
  end.

Module googleai.

(** The values that [encoding/json] decodes into an [interface{}]: nil,
    bool, float64 (kept as its 64 bits), string, [[]interface{}] and
    [map[string]interface{}]; and the Go [int] that the transport stores
    itself.  The maps inside a decoded value are never nil. *)
#[local] Unset Elimination Schemes.
Inductive json :=
| JNull
| JBool (b : bool)
| JFloat (bits : Z)
| JString (s : string)
| JArray (items : list json)
| JObject (fields : gmap string json)
| JInt (n : Z).
#[local] Set Elimination Schemes.

(** [map[string]interface{}{"thinkingBudget": -1}] *)
Definition thinkingConfig : json := JObject {[ "thinkingBudget" := JInt (-1) ]}.

(** [v == nil] for the result of reading a [map[string]interface{}]: the
    key is missing or its value is JSON null *)
Definition is_nil_value (v : option json) : bool :=
  match v with
  | None | Some JNull => true
  | Some _ => false
  end.

(** Lines 57 to 66 of [RoundTrip]: the change made to the decoded request.
    [None] is the panic of a store into a nil map.  The store into
    [genConfig] changes the map that [requestData] holds under
    "generationConfig". *)
Definition addThinkingConfig (requestData : gomap json) : option (gomap json) :=
  requestData ←
    (if is_nil_value (go_lookup requestData "generationConfig")
     then go_store requestData "generationConfig" (JObject ∅)
     else Some requestData);
  match go_lookup requestData "generationConfig" with
  | Some (JObject genConfig) =>
      go_store requestData "generationConfig"
               (JObject (<["thinkingConfig" := thinkingConfig]> genConfig))
  | _ => Some requestData
  end.

Section Transport.
(** The body of a request, what is left untouched of a request, and what
    a transport returns (a response and an error). *)
Context {Body Other Result : Type}.

(** Of [http.Request]: [URL.Path], [Body], [ContentLength], and the
    rest. *)
Record Request := mkRequest {
  Path : string;
  ReqBody : option Body;
  ContentLength : Z;
  Rest : Other
}.

Record thinkingTransport := mkThinkingTransport {
  base : Request -> Result;
  dynamicThinking : bool
}.

(** The library functions [RoundTrip] calls: [io.ReadAll] (the reader
    after the read, and the bytes unless the read fails),
    [io.NopCloser(bytes.NewBuffer(b))], [json.Unmarshal] into a
    [map[string]interface{}] variable and [json.Marshal] (no result when
    they fail; decoding JSON null succeeds and leaves the map nil). *)
Context (ReadAll : Body -> Body * option string).
Context (NewBuffer : string -> Body).
Context (Unmarshal : string -> option (gomap json)).
Context (Marshal : gomap json -> option string).

Definition withBody (req : Request) (body : Body) : Request :=
  mkRequest (Path req) (Some body) (ContentLength req) (Rest req).

(** [None] is a panic; every other way out is a call of the base
    transport. *)
Definition RoundTrip (t : thinkingTransport) (req : Request) : option Result :=
  let shouldAddThinking := dynamicThinking t in
  if shouldAddThinking && Contains (Path req) "generateContent" then
    match ReqBody req with
    | Some body =>
        let '(body, read) := ReadAll body in
        match read with
        | None => Some (base t (withBody req body))
        | Some bodyBytes =>
            match Unmarshal bodyBytes with
            | None => Some (base t (withBody req (NewBuffer bodyBytes)))
            | Some requestData =>
                match addThinkingConfig requestData with
                | None => None
                | Some requestData =>
                    match Marshal requestData with
                    | None =>
                        Some (base t (withBody req (NewBuffer bodyBytes)))
                    | Some modifiedBody =>
                        Some (base t
                                (mkRequest (Path req)
                                   (Some (NewBuffer modifiedBody))
                                   (Z.of_nat (String.length modifiedBody))
                                   (Rest req)))
                    end
                end
            end
        end
    | None => Some (base t req)
    end
  else Some (base t req).

Definition WrapTransportWithThinking (base : Request -> Result)
    (enableThinking : bool) : thinkingTransport :=
  mkThinkingTransport base enableThinking.

End Transport.
Arguments Request : clear implicits.
Arguments thinkingTransport : clear implicits.

End googleai.


(** * The vocabulary of the properties

    Names for what the handler is told, for where an execution stands
    inside the two loops, and for the outcomes of [Call]. *)

(** [order] is an order in which [range] may visit the map: each entry
    once. *)
Definition ranges (inputValues : gmap string any)
    (order : list (string * any)) : Prop :=
  order ≡ₚ map_to_list inputValues.

(** The planner has returned a finish, and no error with it. *)
Definition finish_planned (ev : event) : bool :=
  match ev with
  | EvPlan _ _ _ (Some _) None => true
  | _ => false
  end.

(** the events of dispatching an action *)
Definition is_dispatch (ev : event) : bool :=
  is_on_action ev || is_tool_call ev.

(** A call of a tool that returned an error. *)
Definition tool_failed (ev : event) : bool :=
  match ev with
  | EvToolCall _ _ _ _ (Some _) => true
  | _ => false
  end.

(** The ledger a collaborator is shown: the planner as its argument, a
    tool in its context, the handler as the executed steps. *)
Definition ledger_of (ev : event) : option (list AgentStep) :=
  match ev with
  | EvPlan steps _ _ _ _ => Some steps
  | EvToolCall _ steps _ _ _ => Some steps
  | EvHandleAgentFinish _ steps => Some steps
  | EvHandleAgentAction _ => None
  end.

Definition ledgers (tr : list event) : list (list AgentStep) :=
  omap ledger_of tr.

(** Starting from [lo], each ledger extends the one before it. *)
Fixpoint growing (lo : list AgentStep) (ls : list (list AgentStep)) : Prop :=
  match ls with
  | [] => True
  | l :: ls' => lo `prefix_of` l /\ growing l ls'
  end.

(** an outputs map with nothing in it, nil or not *)
Definition empty_outputs (outputs : gomap any) : Prop :=
  outputs = nilmap \/ outputs = mkmap ∅.

Section Vocabulary.
Context {World : Type}.
Context (texts : SentinelTexts).

Implicit Types (e : Executor World) (steps : list AgentStep)
  (action : AgentAction) (w : World) (tr : list event)
  (nameToTool : gomap (tools.Tool World)) (inputs : gmap string string).

(** *** What the handler is told, and the world after it *)

Definition notifyNotFinished e steps : list event :=
  match CallbacksHandler e with
  | Some _ => [EvHandleAgentFinish (notFinishedFinish texts) steps]
  | None => []
  end.

Definition notifiedWorld e steps w : World :=
  match CallbacksHandler e with
  | Some h => callbacks.HandleAgentFinish h w (notFinishedFinish texts) steps
  | None => w
  end.

(** what [getReturn] gives for the empty finish built at the end of [Call] *)
Definition exhaustedOutputs e steps : gomap any :=
  if ReturnIntermediateSteps e
  then mkmap {[ _intermediateStepsOutputKey := schema.AnySteps steps ]}
  else mkmap ∅.

Definition notifyAction e action : list event :=
  match CallbacksHandler e with
  | Some _ => [EvHandleAgentAction action]
  | None => []
  end.

Definition actionNotified e action w : World :=
  match CallbacksHandler e with
  | Some h => callbacks.HandleAgentAction h w action
  | None => w
  end.

Definition notifyFinish e (finish : AgentFinish) steps : list event :=
  match CallbacksHandler e with
  | Some _ => [EvHandleAgentFinish finish steps]
  | None => []
  end.

Definition finishNotified e (finish : AgentFinish) steps w : World :=
  match CallbacksHandler e with
  | Some h => callbacks.HandleAgentFinish h w finish steps
  | None => w
  end.

(** The iteration after the planner has answered. *)
Definition doIteration_planned e steps nameToTool
    (actions : list AgentAction) (finish : option AgentFinish)
    (err : option error)
  : M World (list AgentStep * gomap any * option error) :=
  match recoverable e err with
  | Some (err, handler) =>
      ret (steps ++ [schema.mkStep schema.zeroAction
                       match Formatter handler with
                       | Some format => format (Error texts err)
                       | None => Error texts err
                       end],
           nilmap, None)
  | None =>
      match err with
      | Some err => ret (steps, nilmap, Some err)
      | None =>
          match finish with
          | Some finish =>
              fun w =>
                after (notifyFinish e finish steps)
                      (bind (getReturn e finish steps)
                            (fun returnValues => ret (steps, returnValues, None))
                            (finishNotified e finish steps w))
          | None =>
              match actions with
              | [] => ret (steps, nilmap, Some ErrAgentNoReturn)
              | _ => doIteration_actions e nameToTool actions steps
              end
          end
      end
  end.

(** The actions [pre] of a batch have all been checked and dispatched,
    none was a repetition and no tool failed: what the ledger, the world
    and the trace are then. *)
Fixpoint dispatchAll e nameToTool (pre : list AgentAction) steps w
  : option (list AgentStep * World * list event) :=
  match pre with
  | [] => Some (steps, w, [])
  | action :: pre' =>
      match checkRepeatedAction steps action with
      | (_, Some _) => None
      | (steps, None) =>
          match doAction e steps nameToTool action w with
          | Ok (steps1, None) w1 tr1 =>
              match dispatchAll e nameToTool pre' steps1 w1 with
              | Some (steps', w', tr') => Some (steps', w', tr1 ++ tr')
              | None => None
              end
          | _ => None
          end
      end
  end.

(** The iterations over [range] have all fallen through to the next one:
    what the ledger, the world and the trace are then. *)
Fixpoint continued e nameToTool inputs (range : list Z) steps w
  : option (list AgentStep * World * list event) :=
  match range with
  | [] => Some (steps, w, [])
  | i :: range' =>
      match doIteration texts e steps nameToTool inputs w with
      | Ok (steps1, finish, err) w1 tr1 =>
          if go_notnil finish || is_some err then None
          else
            match continued e nameToTool inputs range'
                            (lastChance e i steps1) w1 with
            | Some (steps', w', tr') => Some (steps', w', tr1 ++ tr')
            | None => None
            end
      | Panic _ _ => None
      end
  end.

(** [Call] from the loop on, the loop having [range] left to go. *)
Definition Call_rest e nameToTool inputs (range : list Z) steps
  : M World (gomap any * option error) :=
  do r <- Call_for texts e nameToTool inputs range steps;
  match r with
  | inr (finish, err) => ret (finish, err)
  | inl steps =>
      do_ (match CallbacksHandler e with
           | Some h => onFinish h (notFinishedFinish texts) steps
           | None => ret tt
           end);
      do returnValues <- getReturn e (schema.mkFinish (mkmap ∅)) steps;
      ret (returnValues, Some ErrNotFinished)
  end.

(** [Call e order w0] has validated its inputs and run the iterations
    [0 .. i-1], all falling through; it enters iteration [i] with the
    ledger [steps] in the world [w], the trace so far being [tr]. *)
Definition reached e order w0 inputs (i : Z) steps w tr : Prop :=
  inputsToString texts order = inl inputs /\
  0 <= i < MaxIterations e /\
  continued e (getNameToTool (GetTools (ExAgent e))) inputs (seqZ 0 i) [] w0
    = Some (steps, w, tr).

(** the values [i] takes after iteration [i] *)
Definition remaining e (i : Z) : list Z :=
  seqZ (i + 1) (MaxIterations e - i - 1).

(** Some step of the ledger has the tool and the tool input of [action]. *)
Definition repeated steps action : Prop :=
  exists step, step ∈ steps /\
    schema.Tool (schema.Action step) = schema.Tool action /\
    schema.ToolInput (schema.Action step) = schema.ToolInput action.

(** what [getReturn] gives for a finish whose return values are [m] *)
Definition finishOutputs e (m : gmap string any) steps : gmap string any :=
  if ReturnIntermediateSteps e
  then <[_intermediateStepsOutputKey := schema.AnySteps steps]> m
  else m.

End Vocabulary.

(** * More vocabulary: what a trace holds *)

(** the number of actions the planner has returned in the [Plan] calls of
    a trace *)
Definition planned_actions (tr : list event) : nat :=
  sum_list_with (fun ev => match ev with
                            | EvPlan _ _ actions _ _ => length actions
                            | _ => 0%nat
                            end) tr.

(** every [Plan] call of the trace was given [inputs] *)
Definition planned_with (inputs : gmap string string) (ev : event) : Prop :=
  match ev with
  | EvPlan _ inputs' _ _ _ => inputs' = inputs
  | _ => True
  end.

(** the error of a failed tool call *)
Definition tool_error (ev : event) : option error :=
  match ev with
  | EvToolCall _ _ _ _ err => err
  | _ => None
  end.

(** no tool call of the trace has failed *)
Definition tools_ok (tr : list event) : Prop :=
  Forall (fun ev => tool_failed ev = false) tr.

(** the trace ends with a tool call that failed with [err], the only
    failed call of the trace *)
Definition failed_at_end (tr : list event) (err : error) : Prop :=
  exists tr0 ev,
    tr = tr0 ++ [ev] /\ tools_ok tr0 /\
    tool_failed ev = true /\ tool_error ev = Some err.

(** what the thinking transport makes of a decoded request: the
    generation config, created if it is missing or null, gets the
    thinking config; a generation config that is no object is left
    alone *)
Definition withThinking (data : gmap string googleai.json)
  : gmap string googleai.json :=
  match data !! "generationConfig" with
  | None | Some googleai.JNull =>
      <["generationConfig" :=
          googleai.JObject {[ "thinkingConfig" := googleai.thinkingConfig ]}]>
        data
  | Some (googleai.JObject genConfig) =>
      <["generationConfig" :=
          googleai.JObject
            (<["thinkingConfig" := googleai.thinkingConfig]> genConfig)]>
        data
  | Some _ => data
  end.

(** the generation config of a decoded request, if it is an object *)
Definition generationConfig (data : gmap string googleai.json)
  : option (gmap string googleai.json) :=
  match data !! "generationConfig" with
  | Some (googleai.JObject genConfig) => Some genConfig
  | _ => None
  end.

(** * Executors to run the model on

    Small agents and tools over a world with nothing in it. *)

(** texts for the sentinel errors *)
Definition texts0 : SentinelTexts :=
  mkSentinelTexts
    "agent not finished before max iterations"
    "no actions or finish was returned by the agent"
    "unable to parse agent output"
    "input to executor not string".

Definition orderQ : list (string * any) :=
  [("input", schema.AnyString "2+2?")].
Definition inputsQ : gmap string string := {[ "input" := "2+2?" ]}.

(** a calculator that answers 4, a search that times out, a tool that is
    called None *)
Definition calc : tools.Tool unit :=
  tools.mkTool "calc" (fun w _ _ => (w, ("4", None))).
Definition search : tools.Tool unit :=
  tools.mkTool "search" (fun w _ _ => (w, ("", Some (Errorf "timeout")))).
Definition noneTool : tools.Tool unit :=
  tools.mkTool "None" (fun w _ _ => (w, ("nothing to do", None))).

Definition calcAction : AgentAction := schema.mkAction "calc" "2+2" "".
Definition searchAction : AgentAction := schema.mkAction "search" "paris" "".
Definition fooAction : AgentAction := schema.mkAction "fooTool" "x" "".
Definition noneAction : AgentAction := schema.mkAction "NONE" "" "".

Definition calcStep : AgentStep := schema.mkStep calcAction "4".

Definition finish4 : AgentFinish :=
  schema.mkFinish (mkmap {[ "output" := schema.AnyString "4" ]}).

(** the zero value [AgentFinish{}]: its map of return values is nil *)
Definition zeroFinish : AgentFinish := schema.mkFinish nilmap.

Definition silent : callbacks.Handler unit :=
  callbacks.mkHandler (fun w _ => w) (fun w _ _ => w).

(** asks for the same calculation in its first two rounds, then finishes *)
Definition repeater : Agent unit :=
  mkAgent (fun w steps _ =>
             (w, if (length steps <? 2)%nat then ([calcAction], None, None)
                 else ([], Some finish4, None)))
          [calc].
Definition exRepeater : Executor unit := mkExecutor repeater None None 3 false.

(** the trace of [exRepeater] when it enters its second iteration *)
Definition repeaterTrace1 : list event :=
  [EvPlan [] inputsQ [calcAction] None None;
   EvToolCall "calc" [] "2+2" "4" None].

(** never finishes: asks for a tool that is not registered *)
Definition wanderer : Agent unit :=
  mkAgent (fun w _ _ => (w, ([fooAction], None, None))) [calc].
Definition exWanderer : Executor unit :=
  mkExecutor wanderer (Some silent) None 1 true.

(** asks for an unregistered tool and then for the failing search *)
Definition searcher : Agent unit :=
  mkAgent (fun w _ _ => (w, ([fooAction; searchAction], None, None)))
          [calc; search].
Definition exSearcher : Executor unit :=
  mkExecutor searcher (Some silent) None 5 false.

(** its output cannot be parsed *)
Definition unparsable : error :=
  Errorf_w ErrUnableToParseOutput "unable to parse agent output: hmm".
Definition mumbler : Agent unit :=
  mkAgent (fun w _ _ => (w, ([], None, Some unparsable))) [calc].
Definition exMumblerHandled : Executor unit :=
  mkExecutor mumbler None
    (Some (mkParserErrorHandler (Some (fun s => "Try again: " +:+ s)))) 1 false.
Definition exMumbler : Executor unit := mkExecutor mumbler None None 1 false.

(** finishes at once, with the zero finish *)
Definition quitter : Agent unit :=
  mkAgent (fun w _ _ => (w, ([], Some zeroFinish, None))) [calc].
Definition exQuitter : Executor unit := mkExecutor quitter None None 2 false.
Definition exQuitterSteps : Executor unit :=
  mkExecutor quitter None None 2 true.

(** an executor that is given no iteration *)
Definition exIdle : Executor unit :=
  mkExecutor repeater (Some silent) None 0 false.

(** the only step of the ledger of [exWanderer] *)
Definition fooStep : AgentStep := invalidToolStep fooAction.

Definition wandererTrace : list event :=
  [EvPlan [] inputsQ [fooAction] None None; EvHandleAgentAction fooAction].

(** inputs with a value that is not a string *)
Definition inputsSeven : gmap string any := {[ "input" := schema.AnyInt 7 ]}.
Definition orderSeven : list (string * any) := [("input", schema.AnyInt 7)].

Definition inputsValuesQ : gmap string any :=
  {[ "input" := schema.AnyString "2+2?" ]}.

(** the failed call of [search] in the run of [exSearcher] *)
Definition searchFailed : event :=
  EvToolCall "search" [fooStep] "paris" "" (Some (Errorf "timeout")).

(** Scenario A of the spec: one search, then the finish *)
Definition atlas : tools.Tool unit :=
  tools.mkTool "search" (fun w _ _ => (w, ("Paris", None))).
Definition capitalAction : AgentAction :=
  schema.mkAction "search" "capital of France" "".
Definition finishParis : AgentFinish :=
  schema.mkFinish (mkmap {[ "output" := schema.AnyString "Paris" ]}).
Definition geographer : Agent unit :=
  mkAgent (fun w steps _ =>
             (w, if (length steps =? 0)%nat then ([capitalAction], None, None)
                 else ([], Some finishParis, None)))
          [atlas].
Definition exGeographer : Executor unit :=
  mkExecutor geographer None None 15 false.

(** Scenario D of the spec: the tool name NONE, then the finish *)
Definition shrugger : Agent unit :=
  mkAgent (fun w steps _ =>
             (w, if (length steps =? 0)%nat then ([noneAction], None, None)
                 else ([], Some finish4, None)))
          [calc].
Definition exShrugger : Executor unit :=
  mkExecutor shrugger None None 15 false.

(** two actions in one plan *)
Definition sumAction : AgentAction := schema.mkAction "CALC" "1+3" "".
Definition doubler : Agent unit :=
  mkAgent (fun w _ _ => (w, ([calcAction; sumAction], None, None))) [calc].
Definition exDoubler : Executor unit := mkExecutor doubler None None 1 false.

(** * More executors, and a thinking transport *)

(** returns nothing at all *)
Definition mute : Agent unit :=
  mkAgent (fun w _ _ => (w, ([], None, None))) [calc].
Definition exMute : Executor unit := mkExecutor mute (Some silent) None 3 false.

(** fails with an error of its own, an action and a finish in hand *)
Definition rateLimited : error := Errorf "rate limited".
Definition broken : Agent unit :=
  mkAgent (fun w _ _ => (w, ([calcAction], Some finish4, Some rateLimited)))
          [calc].
Definition exBroken : Executor unit :=
  mkExecutor broken (Some silent)
    (Some (mkParserErrorHandler None)) 3 true.

(** [exGeographer] when it enters its second iteration *)
Definition parisStep : AgentStep := schema.mkStep capitalAction "Paris".
Definition geographerTrace1 : list event :=
  [EvPlan [] inputsQ [capitalAction] None None;
   EvToolCall "search" [] "capital of France" "Paris" None].

(** [exRepeater] when it enters its third and last iteration *)
Definition repeaterLedger2 : list AgentStep :=
  [calcStep; repeatedStep calcAction; lastChanceStep].
Definition repeaterTrace2 : list event :=
  [EvPlan [] inputsQ [calcAction] None None;
   EvToolCall "calc" [] "2+2" "4" None;
   EvPlan [calcStep] inputsQ [calcAction] None None].


(** the same calculation asked for with another log *)
Definition calcAgain : AgentAction :=
  schema.mkAction "calc" "2+2" "let me check once more".

(** the trace of [exSearcher] before its search fails *)
Definition searcherTrace : list event :=
  [EvPlan [] inputsQ [fooAction; searchAction] None None;
   EvHandleAgentAction fooAction;
   EvHandleAgentAction searchAction].

(** asks for an unknown tool, then for a calculation, then for nothing *)
Definition blankAction : AgentAction := schema.mkAction "" "" "hmm".
Definition drifter : Agent unit :=
  mkAgent (fun w steps _ =>
             (w, if (length steps =? 0)%nat then ([fooAction], None, None)
                 else if (length steps =? 1)%nat
                      then ([calcAction], None, None)
                      else ([blankAction; calcAction], None, None)))
          [calc].
Definition exDrifter : Executor unit := mkExecutor drifter None None 3 false.
Definition drifterLedger : list AgentStep :=
  [fooStep; calcStep; lastChanceStep].
Definition drifterTrace : list event :=
  [EvPlan [] inputsQ [fooAction] None None;
   EvPlan [fooStep] inputsQ [calcAction] None None;
   EvToolCall "calc" [fooStep] "2+2" "4" None].

(** A transport over bodies that are strings read in one piece, with a
    codec that knows two bodies: the empty object and null. *)
Definition readString (body : string) : string * option string :=
  ("", Some body).
Definition decodeToy (bytes : string) : option (gomap googleai.json) :=
  if bool_decide (bytes = "{}") then Some (mkmap ∅)
  else if bool_decide (bytes = "null") then Some nilmap
  else None.
Definition encodeToy (data : gomap googleai.json) : option string :=
  match data with
  | nilmap => Some "null"
  | mkmap fields =>
      if bool_decide (dom fields = {[ "generationConfig" ]})
      then Some "{generationConfig:{thinkingConfig:{thinkingBudget:-1}}}"
      else None
  end.

Definition echo : googleai.Request string unit -> googleai.Request string unit :=
  fun req => req.
Definition thinker : googleai.thinkingTransport string unit
                       (googleai.Request string unit) :=
  googleai.WrapTransportWithThinking echo true.
Definition idler : googleai.thinkingTransport string unit
                     (googleai.Request string unit) :=
  googleai.WrapTransportWithThinking echo false.

Definition generatePath : string := "/v1beta/models/gemini-pro:generateContent".
Definition countPath : string := "/v1beta/models/gemini-pro:countTokens".

Definition emptyObjectRequest : googleai.Request string unit :=
  googleai.mkRequest generatePath (Some "{}") 2 tt.
Definition brokenRequest : googleai.Request string unit :=
  googleai.mkRequest generatePath (Some "{oops") 5 tt.
Definition countRequest : googleai.Request string unit :=
  googleai.mkRequest countPath (Some "{}") 2 tt.

(** a decoded request with contents and no generation config *)
Definition plainData : gmap string googleai.json :=
  {[ "contents" := googleai.JString "how much is 4*6*3.4" ]}.

(** * Properties *)

(** ** Traces and the monad *)

Lemma count_app p (tr1 tr2 : list event) :
  count p (tr1 ++ tr2) = (count p tr1 + count p tr2)%nat.
Proof. unfold count. by rewrite List.filter_app, length_app. Qed.

Lemma count_nil p : count p [] = 0%nat.
Proof. done. Qed.

Lemma count_cons p ev (tr : list event) :
  count p (ev :: tr) = ((if p ev then 1 else 0) + count p tr)%nat.
Proof. unfold count. simpl. by destruct (p ev). Qed.

Section MonadFacts.
Context {World : Type}.

Lemma after_nil {A} (r : result World A) : after [] r = r.
Proof. by destruct r. Qed.

Lemma after_after {A} tr1 tr2 (r : result World A) :
  after tr1 (after tr2 r) = after (tr1 ++ tr2) r.
Proof. destruct r; simpl; by rewrite app_assoc. Qed.

Lemma trace_of_after {A} tr (r : result World A) :
  trace_of (after tr r) = tr ++ trace_of r.
Proof. by destruct r. Qed.

Lemma bind_Ok {A B} (m : M World A) (f : A -> M World B) w a w' tr :
  m w = Ok a w' tr -> bind m f w = after tr (f a w').
Proof. unfold bind. by intros ->. Qed.

Lemma bind_Panic {A B} (m : M World A) (f : A -> M World B) w w' tr :
  m w = Panic w' tr -> bind m f w = Panic w' tr.
Proof. unfold bind. by intros ->. Qed.

Lemma bind_ret {A B} (a : A) (f : A -> M World B) w :
  bind (ret a) f w = f a w.
Proof. unfold bind, ret. apply after_nil. Qed.

(** An [Ok] result of a [bind] comes from [Ok] results of its two parts. *)
Lemma bind_Ok_inv {A B} (m : M World A) (f : A -> M World B) w b w2 tr :
  bind m f w = Ok b w2 tr ->
  exists a w1 tr1 tr2,
    m w = Ok a w1 tr1 /\ f a w1 = Ok b w2 tr2 /\ tr = tr1 ++ tr2.
Proof.
  unfold bind. destruct (m w) as [a w1 tr1|]; [|done].
  destruct (f a w1) as [b' w2' tr2|] eqn:Hf; [|done].
  simpl. intros [= <- <- <-]. by exists a, w1, tr1, tr2.
Qed.

Lemma trace_of_bind {A B} (m : M World A) (f : A -> M World B) w :
  trace_of (bind m f w) =
  match m w with
  | Ok a w' tr => tr ++ trace_of (f a w')
  | Panic _ tr => tr
  end.
Proof. unfold bind. destruct (m w); [apply trace_of_after|done]. Qed.

End MonadFacts.

(** ** Input validation *)

Section Properties.
Context {World : Type}.
Context (texts : SentinelTexts).

Implicit Types (e : Executor World) (steps : list AgentStep)
  (action : AgentAction) (w : World) (tr : list event)
  (nameToTool : gomap (tools.Tool World)) (inputs : gmap string string).

Lemma inputsToString_range_not_string order inputs :
  (exists key value, (key, value) ∈ order /\ assert_string value = None) ->
  exists key value,
    (key, value) ∈ order /\ assert_string value = None /\
    inputsToString_range texts order inputs =
      inr (Errorf_w ErrExecutorInputNotString
             (Error texts ErrExecutorInputNotString +:+ ": " +:+ key)).
Proof.
  revert inputs. induction order as [|[k v] order IH]; intros inputs.
  - intros (key & value & Hin & _). by apply elem_of_nil in Hin.
  - intros (key & value & Hin & Hns). simpl.
    destruct (assert_string v) as [s|] eqn:Hv.
    + apply elem_of_cons in Hin as [[= -> ->]|Hin]; [congruence|].
      destruct (IH (<[k:=s]> inputs)) as (k' & v' & Hin' & Hns' & Heq);
        [by eauto|].
      exists k', v'. split_and!; [by apply list_elem_of_further|done|done].
    + exists k, v. split_and!; [by apply list_elem_of_here|done|done].
Qed.

Lemma inputsToString_range_strings order inputs :
  Forall (fun kv => is_Some (assert_string kv.2)) order ->
  exists inputs', inputsToString_range texts order inputs = inl inputs'.
Proof.
  revert inputs. induction order as [|[k v] order IH]; intros inputs Hall.
  - by eexists.
  - apply Forall_cons in Hall as [[s Hs] Hall]. simpl in *. rewrite Hs.
    by apply IH.
Qed.

Lemma inputsToString_strings (inputValues : gmap string any) order :
  ranges inputValues order ->
  (forall key value, inputValues !! key = Some value ->
                     is_Some (assert_string value)) ->
  exists inputs, inputsToString texts order = inl inputs.
Proof.
  intros Hr Hall. apply inputsToString_range_strings.
  apply Forall_forall. intros [k v] Hin. simpl.
  apply (Hall k). apply elem_of_map_to_list. by rewrite <- Hr.
Qed.

(** C8. If some value of the inputs is not a string, [Call] returns nil
    outputs and an error that wraps [ErrExecutorInputNotString] and names
    the key of such a value; the world is untouched and the trace is empty:
    no planner, tool or handler was invoked. *)
Theorem C8_input_not_string e (inputValues : gmap string any) order w :
  ranges inputValues order ->
  (exists key value,
     inputValues !! key = Some value /\ assert_string value = None) ->
  exists key value err,
    inputValues !! key = Some value /\ assert_string value = None /\
    err = Errorf_w ErrExecutorInputNotString
            (Error texts ErrExecutorInputNotString +:+ ": " +:+ key) /\
    errors_Is err ErrExecutorInputNotString = true /\
    Call texts e order w = Ok (nilmap, Some err) w [].
Proof.
  intros Hr (key & value & Hk & Hns).
  destruct (inputsToString_range_not_string order ∅) as (k & v & Hin & Hv & Heq).
  { exists key, value. split; [|done]. rewrite Hr. by apply elem_of_map_to_list. }
  exists k, v, (Errorf_w ErrExecutorInputNotString
                  (Error texts ErrExecutorInputNotString +:+ ": " +:+ k)).
  split_and!; [|done|done|done|].
  - apply elem_of_map_to_list. by rewrite <- Hr.
  - unfold Call, inputsToString. by rewrite Heq.
Qed.

(** ** An iteration budget that is zero or negative *)

(** The end of [Call], once the loop is left with the ledger [steps]. *)
Lemma Call_exhausted e order inputs steps w w1 tr :
  inputsToString texts order = inl inputs ->
  Call_for texts e (getNameToTool (GetTools (ExAgent e))) inputs
           (seqZ 0 (MaxIterations e)) [] w = Ok (inl steps) w1 tr ->
  Call texts e order w =
    Ok (exhaustedOutputs e steps, Some ErrNotFinished)
       (notifiedWorld texts e steps w1) (tr ++ notifyNotFinished texts e steps).
Proof.
  intros Hin Hfor. unfold Call. rewrite Hin. cbv zeta.
  rewrite (bind_Ok _ _ _ _ _ _ Hfor).
  unfold notifiedWorld, notifyNotFinished, exhaustedOutputs, getReturn.
  destruct (CallbacksHandler e) as [h|], (ReturnIntermediateSteps e);
    simpl; unfold bind, ret, onFinish; simpl;
    rewrite ?insert_empty, ?app_nil_r; reflexivity.
Qed.

(** The [return] inside the loop is the result of [Call]. *)
Lemma Call_returned e order inputs finish err w w1 tr :
  inputsToString texts order = inl inputs ->
  Call_for texts e (getNameToTool (GetTools (ExAgent e))) inputs
           (seqZ 0 (MaxIterations e)) [] w = Ok (inr (finish, err)) w1 tr ->
  Call texts e order w = Ok (finish, err) w1 tr.
Proof.
  intros Hin Hfor. unfold Call. rewrite Hin. cbv zeta.
  rewrite (bind_Ok _ _ _ _ _ _ Hfor). simpl. by rewrite app_nil_r.
Qed.

(** C10. With [MaxIterations <= 0] and inputs that are all strings, [Call]
    returns [ErrNotFinished]; its trace holds no planner and no tool
    invocation: it is empty when no handler is configured, and otherwise
    it is the single [HandleAgentFinish] notification whose return values
    are [{"output": ErrNotFinished.Error()}]. *)
Theorem C10_no_iterations e (inputValues : gmap string any) order w :
  MaxIterations e <= 0 ->
  ranges inputValues order ->
  (forall key value, inputValues !! key = Some value ->
                     is_Some (assert_string value)) ->
  Call texts e order w =
    Ok (exhaustedOutputs e [], Some ErrNotFinished)
       (notifiedWorld texts e [] w) (notifyNotFinished texts e []) /\
  count is_plan (notifyNotFinished texts e []) = 0%nat /\
  count is_tool_call (notifyNotFinished texts e []) = 0%nat /\
  (forall h, CallbacksHandler e = Some h ->
     notifyNotFinished texts e [] =
       [EvHandleAgentFinish
          (schema.mkFinish
             (mkmap {[ "output" :=
                         schema.AnyString (Error texts ErrNotFinished) ]}))
          []]).
Proof.
  intros Hmax Hr Hall.
  destruct (inputsToString_strings _ _ Hr Hall) as [inputs Hin].
  split_and!.
  - rewrite (Call_exhausted e order inputs [] w w []); [done|done|].
    replace (seqZ 0 (MaxIterations e)) with (@nil Z); [done|].
    unfold seqZ. by replace (Z.to_nat (MaxIterations e)) with 0%nat by lia.
  - unfold notifyNotFinished. by destruct (CallbacksHandler e).
  - unfold notifyNotFinished. by destruct (CallbacksHandler e).
  - intros h Hh. unfold notifyNotFinished. by rewrite Hh.
Qed.

(** ** The functions of the loop, world and trace written out *)

Lemma doAction_unfold e steps nameToTool action w :
  doAction e steps nameToTool action w =
  after (notifyAction e action)
    match go_lookup nameToTool (ToUpper (schema.Tool action)) with
    | None =>
        Ok (steps ++ [if bool_decide (ToLower (schema.Tool action) = "none")
                      then finalAnswerStep action
                      else invalidToolStep action], None)
           (actionNotified e action w) []
    | Some tool =>
        let '(w', (observation, err)) :=
          tools.Call tool (actionNotified e action w) steps
                     (schema.ToolInput action) in
        Ok match err with
           | Some err => ([], Some err)
           | None => (steps ++ [schema.mkStep action observation], None)
           end
           w' [EvToolCall (tools.Name tool) steps (schema.ToolInput action)
                          observation err]
    end.
Proof.
  unfold doAction, notifyAction, actionNotified, bind, onAction, ret.
  destruct (CallbacksHandler e) as [h|]; simpl;
    (destruct (go_lookup nameToTool _) as [tool|];
     [ unfold callTool;
       destruct (tools.Call tool _ steps _) as [w' [observation [err|]]];
       reflexivity
     | case_bool_decide; reflexivity ]).
Qed.

Lemma doIteration_unfold e steps nameToTool inputs w :
  doIteration texts e steps nameToTool inputs w =
  let '(w', (actions, finish, err)) := Plan (ExAgent e) w steps inputs in
  after [EvPlan steps inputs actions finish err]
        (doIteration_planned texts e steps nameToTool actions finish err w').
Proof.
  unfold doIteration, doIteration_planned, bind at 1, plan.
  destruct (Plan (ExAgent e) w steps inputs) as [w' [[actions finish] err]].
  f_equal.
  destruct (recoverable e err) as [[err' handler]|]; [done|].
  destruct err as [err|]; [done|].
  destruct finish as [finish|].
  - rewrite andb_false_r.
    unfold notifyFinish, finishNotified, bind, onFinish, ret.
    destruct (CallbacksHandler e); simpl; by rewrite ?after_nil.
  - by destruct actions.
Qed.

(** ** The bound on planner invocations *)

Lemma doAction_plans e steps nameToTool action w :
  count is_plan (trace_of (doAction e steps nameToTool action w)) = 0%nat.
Proof.
  rewrite doAction_unfold, trace_of_after, count_app.
  unfold notifyAction.
  destruct (CallbacksHandler e), (go_lookup nameToTool _) as [tool|];
    try done;
    by destruct (tools.Call tool _ steps _) as [w' [observation err]].
Qed.

Lemma doIteration_actions_plans e nameToTool actions steps w :
  count is_plan
    (trace_of (doIteration_actions e nameToTool actions steps w)) = 0%nat.
Proof.
  revert steps w. induction actions as [|action actions IH]; intros steps w.
  - done.
  - simpl. destruct (checkRepeatedAction steps action) as [steps1 [err|]];
      [done|].
    rewrite trace_of_bind.
    pose proof (doAction_plans e steps1 nameToTool action w) as Hact.
    destruct (doAction e steps1 nameToTool action w)
      as [[steps2 [err|]] w2 tr2|w2 tr2]; simpl in *;
      rewrite ?count_app, ?Hact, ?IH; done.
Qed.

Lemma getReturn_trace e finish steps w :
  trace_of (getReturn e finish steps w) = [].
Proof.
  unfold getReturn. destruct (ReturnIntermediateSteps e); [|done].
  by destruct (go_store _ _ _).
Qed.

Lemma doIteration_plans e steps nameToTool inputs w :
  count is_plan
    (trace_of (doIteration texts e steps nameToTool inputs w)) = 1%nat.
Proof.
  rewrite doIteration_unfold.
  destruct (Plan (ExAgent e) w steps inputs) as [w' [[actions finish] err]].
  rewrite trace_of_after, count_app. unfold doIteration_planned.
  destruct (recoverable e err) as [[err' handler]|]; [done|].
  destruct err as [err|]; [done|].
  destruct finish as [finish|].
  - rewrite trace_of_after, trace_of_bind, count_app.
    pose proof (getReturn_trace e finish steps
                  (finishNotified e finish steps w')) as Hret.
    unfold notifyFinish.
    destruct (getReturn e finish steps _); simpl in Hret; subst;
      by destruct (CallbacksHandler e).
  - destruct actions as [|action actions]; [done|].
    by rewrite doIteration_actions_plans.
Qed.

Lemma Call_for_plans e nameToTool inputs range steps w :
  (count is_plan
     (trace_of (Call_for texts e nameToTool inputs range steps w))
   <= length range)%nat.
Proof.
  revert steps w. induction range as [|i range IH]; intros steps w.
  - done.
  - simpl. rewrite trace_of_bind.
    pose proof (doIteration_plans e steps nameToTool inputs w) as Hit.
    destruct (doIteration texts e steps nameToTool inputs w)
      as [[[steps1 finish] err] w1 tr1|w1 tr1]; simpl in Hit.
    + rewrite count_app, Hit.
      destruct (go_notnil finish || is_some err); simpl;
        [unfold count; simpl; lia|].
      specialize (IH (lastChance e i steps1) w1). lia.
    + lia.
Qed.

(** A loop left at its end has asked the planner once per iteration. *)
Lemma Call_for_exhausted_plans e nameToTool inputs range steps w steps' w' tr :
  Call_for texts e nameToTool inputs range steps w = Ok (inl steps') w' tr ->
  count is_plan tr = length range.
Proof.
  revert steps w tr. induction range as [|i range IH]; intros steps w tr.
  - by intros [= <- <- <-].
  - simpl. intros Hb.
    apply bind_Ok_inv in Hb
      as ([[steps1 finish] err] & w1 & tr1 & tr2 & Hit & Hrest & ->).
    pose proof (doIteration_plans e steps nameToTool inputs w) as Hc.
    rewrite Hit in Hc. simpl in Hc.
    destruct (go_notnil finish || is_some err); [done|].
    apply IH in Hrest. rewrite count_app. simpl. lia.
Qed.

(** C3. In one [Call] the planner is invoked at most [MaxIterations]
    times (never, when [MaxIterations] is negative), whatever the plans
    hold: the trace of the [Call], be it returned from or panicked out of,
    has at most [MaxIterations] [Plan] events. *)
Theorem C3_plan_bound e order w :
  (count is_plan (trace_of (Call texts e order w))
   <= Z.to_nat (MaxIterations e))%nat.
Proof.
  unfold Call. destruct (inputsToString texts order) as [inputs|err].
  - cbv zeta. rewrite trace_of_bind.
    pose proof (Call_for_plans e (getNameToTool (GetTools (ExAgent e)))
                  inputs (seqZ 0 (MaxIterations e)) [] w) as Hfor.
    rewrite length_seqZ in Hfor.
    destruct (Call_for _ _ _ _ _ _ _) as [[steps|[finish err]] w1 tr1|w1 tr1];
      simpl in *; [|by rewrite app_nil_r|done].
    rewrite trace_of_bind.
    assert (forall w2, count is_plan
      (trace_of (bind (getReturn e (schema.mkFinish (mkmap ∅)) steps)
                   (fun returnValues => ret (returnValues, Some ErrNotFinished))
                   w2)) = 0%nat) as Hret.
    { intros w2. rewrite trace_of_bind.
      pose proof (getReturn_trace e (schema.mkFinish (mkmap ∅)) steps w2) as H.
      destruct (getReturn _ _ _ _); simpl in *; by subst. }
    destruct (CallbacksHandler e) as [h|]; simpl;
      rewrite !count_app, ?count_cons, Hret; simpl; lia.
  - simpl. rewrite count_nil. lia.
Qed.

(** ** Where an iteration stands inside the two loops *)

Lemma doIteration_actions_app e nameToTool pre post steps0 w0 steps w tr :
  dispatchAll e nameToTool pre steps0 w0 = Some (steps, w, tr) ->
  doIteration_actions e nameToTool (pre ++ post) steps0 w0 =
  after tr (doIteration_actions e nameToTool post steps w).
Proof.
  revert steps0 w0 tr.
  induction pre as [|action pre IH]; intros steps0 w0 tr; simpl.
  - intros [= <- <- <-]. by rewrite after_nil.
  - destruct (checkRepeatedAction steps0 action) as [steps1 [err|]]; [done|].
    destruct (doAction e steps1 nameToTool action w0)
      as [[steps2 [err|]] w2 tr2|] eqn:Hact; [done| |done].
    destruct (dispatchAll e nameToTool pre steps2 w2)
      as [[[steps' w'] tr']|] eqn:Hpre; [|done].
    intros [= <- <- <-].
    rewrite (bind_Ok _ _ _ _ _ _ Hact), (IH _ _ _ Hpre).
    by rewrite after_after.
Qed.

Lemma Call_for_app e nameToTool inputs pre post steps0 w0 steps w tr :
  continued texts e nameToTool inputs pre steps0 w0 = Some (steps, w, tr) ->
  Call_for texts e nameToTool inputs (pre ++ post) steps0 w0 =
  after tr (Call_for texts e nameToTool inputs post steps w).
Proof.
  revert steps0 w0 tr.
  induction pre as [|i pre IH]; intros steps0 w0 tr; simpl.
  - intros [= <- <- <-]. by rewrite after_nil.
  - destruct (doIteration texts e steps0 nameToTool inputs w0)
      as [[[steps1 finish] err] w1 tr1|] eqn:Hit; [|done].
    destruct (go_notnil finish || is_some err) eqn:Hstop; [done|].
    destruct (continued texts e nameToTool inputs pre _ w1)
      as [[[steps' w'] tr']|] eqn:Hpre; [|done].
    intros [= <- <- <-].
    rewrite (bind_Ok _ _ _ _ _ _ Hit). cbv beta iota. rewrite Hstop.
    by rewrite (IH _ _ _ Hpre), after_after.
Qed.

Lemma after_bind {A B} tr (m : M World A) (f : A -> M World B) w :
  after tr (bind m f w) = bind (fun w => after tr (m w)) f w.
Proof.
  unfold bind. destruct (m w) as [a w' tr'|]; simpl; [|done].
  by rewrite after_after.
Qed.

Lemma seqZ_split (i n : Z) :
  0 <= i < n -> seqZ 0 n = seqZ 0 i ++ i :: seqZ (i + 1) (n - i - 1).
Proof.
  intros Hi. replace n with (i + (n - i)) at 1 by lia.
  rewrite seqZ_app by lia. f_equal.
  rewrite Z.add_0_l. rewrite (seqZ_cons i (n - i)) by lia.
  by rewrite <- Z.add_1_r, <- Z.sub_1_r.
Qed.

(** [Call] is what is left of it from the iteration it has reached. *)
Lemma Call_reached e order w0 inputs i steps w tr :
  reached texts e order w0 inputs i steps w tr ->
  Call texts e order w0 =
  after tr (Call_rest texts e (getNameToTool (GetTools (ExAgent e))) inputs
              (i :: remaining e i) steps w).
Proof.
  intros (Hin & Hi & Hcont). unfold Call, Call_rest, remaining.
  rewrite Hin. cbv zeta. rewrite after_bind. unfold bind at 1 3.
  by rewrite (seqZ_split i (MaxIterations e) Hi), (Call_for_app _ _ _ _ _ _ _ _ _ _ Hcont).
Qed.

(** One iteration inside [Call_rest]: a [return], or on to the next. *)
Lemma Call_rest_step e nameToTool inputs i range steps w steps1 finish err w1 tr1 :
  doIteration texts e steps nameToTool inputs w
    = Ok (steps1, finish, err) w1 tr1 ->
  Call_rest texts e nameToTool inputs (i :: range) steps w =
  if go_notnil finish || is_some err then Ok (finish, err) w1 tr1
  else after tr1 (Call_rest texts e nameToTool inputs range
                    (lastChance e i steps1) w1).
Proof.
  intros Hit. unfold Call_rest. simpl Call_for.
  destruct (go_notnil finish || is_some err) eqn:Hstop.
  - unfold bind at 1. rewrite (bind_Ok _ _ _ _ _ _ Hit).
    cbv beta iota. rewrite Hstop. simpl. by rewrite !app_nil_r.
  - rewrite after_bind. unfold bind at 1 3.
    rewrite (bind_Ok _ _ _ _ _ _ Hit). cbv beta iota. by rewrite Hstop.
Qed.

Lemma Call_from_start e order inputs w :
  inputsToString texts order = inl inputs ->
  Call texts e order w =
  Call_rest texts e (getNameToTool (GetTools (ExAgent e))) inputs
            (seqZ 0 (MaxIterations e)) [] w.
Proof. intros Hin. unfold Call, Call_rest. by rewrite Hin. Qed.

Lemma remaining_cons e i :
  i + 1 < MaxIterations e -> remaining e i = (i + 1) :: remaining e (i + 1).
Proof.
  intros Hi. unfold remaining. rewrite seqZ_cons by lia.
  do 2 f_equal; lia.
Qed.

Lemma remaining_nil e i : MaxIterations e <= i + 1 -> remaining e i = [].
Proof.
  intros Hi. unfold remaining, seqZ.
  by replace (Z.to_nat (MaxIterations e - i - 1)) with 0%nat by lia.
Qed.

(** An iteration starts by asking the planner, with the ledger as it is. *)
Lemma doIteration_plans_first e steps nameToTool inputs w :
  exists actions finish err tr,
    trace_of (doIteration texts e steps nameToTool inputs w)
    = EvPlan steps inputs actions finish err :: tr.
Proof.
  rewrite doIteration_unfold.
  destruct (Plan (ExAgent e) w steps inputs) as [w' [[actions finish] err]].
  rewrite trace_of_after. by eauto.
Qed.

Lemma trace_of_bind_head {A B} (m : M World A) (f : A -> M World B) w ev tr :
  trace_of (m w) = ev :: tr ->
  exists tr', trace_of (bind m f w) = ev :: tr'.
Proof.
  intros Hm. rewrite trace_of_bind.
  destruct (m w); simpl in Hm; subst; by eauto.
Qed.

(** With an iteration left, what is left of [Call] starts by asking the
    planner. *)
Lemma Call_rest_plans_first e nameToTool inputs i range steps w :
  exists actions finish err tr,
    trace_of (Call_rest texts e nameToTool inputs (i :: range) steps w)
    = EvPlan steps inputs actions finish err :: tr.
Proof.
  destruct (doIteration_plans_first e steps nameToTool inputs w)
    as (actions & finish & err & tr & Hit).
  exists actions, finish, err. unfold Call_rest. simpl Call_for.
  eapply trace_of_bind_head in Hit as [tr1 Hfor].
  eapply trace_of_bind_head in Hfor as [tr2 Hrest].
  exists tr2. exact Hrest.
Qed.

(** With no iteration left, what is left of [Call] is its end. *)
Lemma Call_rest_nil e nameToTool inputs steps w :
  Call_rest texts e nameToTool inputs [] steps w =
  Ok (exhaustedOutputs e steps, Some ErrNotFinished)
     (notifiedWorld texts e steps w) (notifyNotFinished texts e steps).
Proof.
  unfold Call_rest, notifiedWorld, notifyNotFinished, exhaustedOutputs,
    getReturn.
  destruct (CallbacksHandler e) as [h|], (ReturnIntermediateSteps e);
    simpl; unfold bind, ret, onFinish; simpl;
    rewrite ?insert_empty; reflexivity.
Qed.

(** ** Repeated actions *)

Lemma checkRepeatedAction_range_repeated rest steps action :
  repeated rest action ->
  checkRepeatedAction_range rest steps action =
    (steps ++ [repeatedStep action],
     Some (Errorf ("repeated action: " +:+ schema.Tool action))).
Proof.
  induction rest as [|step rest IH]; intros (st & Hin & Ht & Hi).
  - by apply elem_of_nil in Hin.
  - simpl. case_bool_decide as H1; [case_bool_decide as H2|]; simpl; try done.
    + apply IH. apply elem_of_cons in Hin as [->|Hin]; [done|].
      by exists st.
    + apply IH. apply elem_of_cons in Hin as [->|Hin]; [done|].
      by exists st.
Qed.

Lemma checkRepeatedAction_range_fresh rest steps action :
  ~ repeated rest action ->
  checkRepeatedAction_range rest steps action = (steps, None).
Proof.
  induction rest as [|step rest IH]; intros Hfresh; [done|].
  simpl. case_bool_decide as H1; [case_bool_decide as H2|]; simpl.
  - destruct Hfresh. exists step. split; [apply list_elem_of_here|done].
  - apply IH. intros (st & Hin & Ht & Hi). apply Hfresh.
    exists st. split; [by apply list_elem_of_further|done].
  - apply IH. intros (st & Hin & Ht & Hi). apply Hfresh.
    exists st. split; [by apply list_elem_of_further|done].
Qed.

Lemma checkRepeatedAction_repeated steps action :
  repeated steps action ->
  checkRepeatedAction steps action =
    (steps ++ [repeatedStep action],
     Some (Errorf ("repeated action: " +:+ schema.Tool action))).
Proof. apply checkRepeatedAction_range_repeated. Qed.

Lemma checkRepeatedAction_fresh steps action :
  ~ repeated steps action -> checkRepeatedAction steps action = (steps, None).
Proof. apply checkRepeatedAction_range_fresh. Qed.

(** An iteration whose plan holds actions and nothing else. *)
Lemma doIteration_actions_planned e steps nameToTool inputs w w1 actions :
  Plan (ExAgent e) w steps inputs = (w1, (actions, None, None)) ->
  actions <> [] ->
  doIteration texts e steps nameToTool inputs w =
  after [EvPlan steps inputs actions None None]
        (doIteration_actions e nameToTool actions steps w1).
Proof.
  intros Hplan Hne. rewrite doIteration_unfold, Hplan.
  unfold doIteration_planned, recoverable. by destruct actions.
Qed.

(** C1 (amended). An action of the batch whose tool and tool input are
    those of a step already in the ledger is not dispatched: exactly one
    cautionary step is appended, the repetition error is dropped, the
    actions after it in the batch are left out, and the iteration ends
    there.  The loop of [Call] is not left: [Call] goes on with the
    iterations that remain, and if one remains the planner is asked
    again, with the ledger that ends with the cautionary step. *)
Theorem C1_repeated_action_ends_iteration
    e order w0 inputs i steps0 wp tr0 w1 pre action post steps w tr :
  let nameToTool := getNameToTool (GetTools (ExAgent e)) in
  let planned := EvPlan steps0 inputs (pre ++ action :: post) None None in
  reached texts e order w0 inputs i steps0 wp tr0 ->
  Plan (ExAgent e) wp steps0 inputs
    = (w1, (pre ++ action :: post, None, None)) ->
  dispatchAll e nameToTool pre steps0 w1 = Some (steps, w, tr) ->
  repeated steps action ->
  checkRepeatedAction steps action
    = (steps ++ [repeatedStep action],
       Some (Errorf ("repeated action: " +:+ schema.Tool action))) /\
  doIteration texts e steps0 nameToTool inputs wp
    = Ok (steps ++ [repeatedStep action], nilmap, None) w (planned :: tr) /\
  Call texts e order w0
    = after (tr0 ++ planned :: tr)
        (Call_rest texts e nameToTool inputs (remaining e i)
           (lastChance e i (steps ++ [repeatedStep action])) w) /\
  (i + 1 < MaxIterations e ->
   exists actions finish err tr',
     trace_of (Call texts e order w0)
     = (tr0 ++ planned :: tr)
         ++ EvPlan (lastChance e i (steps ++ [repeatedStep action])) inputs
                   actions finish err :: tr').
Proof.
  intros nameToTool planned Hreach Hplan Hpre Hrep.
  pose proof (checkRepeatedAction_repeated _ _ Hrep) as Hcheck.
  assert (doIteration texts e steps0 nameToTool inputs wp
          = Ok (steps ++ [repeatedStep action], nilmap, None) w (planned :: tr))
    as Hit.
  { rewrite (doIteration_actions_planned _ _ _ _ _ _ _ Hplan)
      by (by destruct pre).
    rewrite (doIteration_actions_app _ _ _ _ _ _ _ _ _ Hpre).
    simpl. rewrite Hcheck. simpl. by rewrite app_nil_r. }
  assert (Call texts e order w0
          = after (tr0 ++ planned :: tr)
              (Call_rest texts e nameToTool inputs (remaining e i)
                 (lastChance e i (steps ++ [repeatedStep action])) w))
    as Hcall.
  { rewrite (Call_reached _ _ _ _ _ _ _ _ Hreach).
    rewrite (Call_rest_step _ _ _ _ _ _ _ _ _ _ _ _ Hit). simpl.
    by rewrite after_after. }
  split_and!; [done|done|done|].
  intros Hi. rewrite Hcall, trace_of_after, (remaining_cons _ _ Hi).
  destruct (Call_rest_plans_first e nameToTool inputs (i + 1)
              (remaining e (i + 1))
              (lastChance e i (steps ++ [repeatedStep action])) w)
    as (actions & finish & err & tr' & ->).
  by eauto.
Qed.

(** ** Planner output that cannot be parsed *)

(** C6. When the planner fails with an error that is
    [ErrUnableToParseOutput]: with an error handler configured, the
    iteration appends one step with the zero action and the error text
    (passed through the formatter when there is one), its only event is
    the [Plan] call, and [Call] goes on with the iterations that remain
    (if one remains, the planner is asked again, with that ledger); with
    no error handler, [Call] returns nil outputs and that error. *)
Theorem C6_unparsable_output
    e order w0 inputs i steps wp tr0 w1 actions finish err :
  let nameToTool := getNameToTool (GetTools (ExAgent e)) in
  let planned := EvPlan steps inputs actions finish (Some err) in
  reached texts e order w0 inputs i steps wp tr0 ->
  Plan (ExAgent e) wp steps inputs = (w1, (actions, finish, Some err)) ->
  errors_Is err ErrUnableToParseOutput = true ->
  match ErrorHandler e with
  | Some handler =>
      let observation :=
        match Formatter handler with
        | Some format => format (Error texts err)
        | None => Error texts err
        end in
      let steps' := steps ++ [schema.mkStep schema.zeroAction observation] in
      doIteration texts e steps nameToTool inputs wp
        = Ok (steps', nilmap, None) w1 [planned] /\
      Call texts e order w0
        = after (tr0 ++ [planned])
            (Call_rest texts e nameToTool inputs (remaining e i)
               (lastChance e i steps') w1) /\
      (i + 1 < MaxIterations e ->
       exists actions' finish' err' tr',
         trace_of (Call texts e order w0)
         = (tr0 ++ [planned])
             ++ EvPlan (lastChance e i steps') inputs actions' finish' err'
                  :: tr')
  | None =>
      doIteration texts e steps nameToTool inputs wp
        = Ok (steps, nilmap, Some err) w1 [planned] /\
      Call texts e order w0 = Ok (nilmap, Some err) w1 (tr0 ++ [planned])
  end.
Proof.
  intros nameToTool planned Hreach Hplan His.
  rewrite (Call_reached _ _ _ _ _ _ _ _ Hreach).
  destruct (ErrorHandler e) as [handler|] eqn:Hh.
  - cbv zeta.
    assert (doIteration texts e steps nameToTool inputs wp
            = Ok (steps ++ [schema.mkStep schema.zeroAction
                              match Formatter handler with
                              | Some format => format (Error texts err)
                              | None => Error texts err
                              end], nilmap, None) w1 [planned]) as Hit.
    { rewrite doIteration_unfold, Hplan.
      unfold doIteration_planned, recoverable. by rewrite Hh, His. }
    split; [done|].
    rewrite (Call_rest_step _ _ _ _ _ _ _ _ _ _ _ _ Hit). simpl.
    rewrite after_after. split; [done|].
    intros Hi. rewrite trace_of_after, (remaining_cons _ _ Hi).
    destruct (Call_rest_plans_first e nameToTool inputs (i + 1)
                (remaining e (i + 1))
                (lastChance e i
                   (steps ++ [schema.mkStep schema.zeroAction
                                match Formatter handler with
                                | Some format => format (Error texts err)
                                | None => Error texts err
                                end])) w1)
      as (actions' & finish' & err' & tr' & ->).
    by eauto.
  - assert (doIteration texts e steps nameToTool inputs wp
            = Ok (steps, nilmap, Some err) w1 [planned]) as Hit.
    { rewrite doIteration_unfold, Hplan.
      unfold doIteration_planned, recoverable. by rewrite Hh. }
    split; [done|].
    by rewrite (Call_rest_step _ _ _ _ _ _ _ _ _ _ _ _ Hit).
Qed.

(** ** A plan with a finish *)

(** When the planner returns, with no error, a finish whose return values
    are a map that is not nil, [Call] returns: no error, outputs that are
    the return values, with the ledger under ["intermediateSteps"] iff
    [ReturnIntermediateSteps] is set; after the [Plan] call there is
    nothing but the notification of the handler, whatever actions came
    with the finish. *)
Lemma Call_finish_returns
    e order w0 inputs i steps wp tr0 w1 actions finish m :
  reached texts e order w0 inputs i steps wp tr0 ->
  Plan (ExAgent e) wp steps inputs = (w1, (actions, Some finish, None)) ->
  schema.ReturnValues finish = mkmap m ->
  Call texts e order w0 =
    Ok (mkmap (finishOutputs e m steps), None)
       (finishNotified e finish steps w1)
       (tr0 ++ EvPlan steps inputs actions (Some finish) None
            :: notifyFinish e finish steps).
Proof.
  intros Hreach Hplan Hm.
  rewrite (Call_reached _ _ _ _ _ _ _ _ Hreach).
  assert (doIteration texts e steps (getNameToTool (GetTools (ExAgent e)))
            inputs wp
          = Ok (steps, mkmap (finishOutputs e m steps), None)
               (finishNotified e finish steps w1)
               (EvPlan steps inputs actions (Some finish) None
                  :: notifyFinish e finish steps)) as Hit.
  { rewrite doIteration_unfold, Hplan.
    unfold doIteration_planned, recoverable, getReturn, finishOutputs.
    rewrite Hm. unfold bind, ret, go_store.
    destruct (ReturnIntermediateSteps e); simpl; by rewrite !app_nil_r. }
  by rewrite (Call_rest_step _ _ _ _ _ _ _ _ _ _ _ _ Hit).
Qed.

(** ** The iteration budget used up *)

Lemma count_none p (tr : list event) :
  Forall (fun ev => p ev = false) tr -> count p tr = 0%nat.
Proof.
  induction 1 as [|ev tr Hev _ IH]; [done|].
  by rewrite count_cons, Hev, IH.
Qed.

Lemma doAction_dispatch e steps nameToTool action w :
  Forall (fun ev => is_dispatch ev = true)
         (trace_of (doAction e steps nameToTool action w)).
Proof.
  rewrite doAction_unfold, trace_of_after. apply Forall_app. split.
  - unfold notifyAction. destruct (CallbacksHandler e); by repeat constructor.
  - destruct (go_lookup nameToTool _) as [tool|]; [|by constructor].
    destruct (tools.Call tool _ steps _) as [w' [observation err]].
    by repeat constructor.
Qed.

Lemma doIteration_actions_dispatch e nameToTool actions steps w :
  Forall (fun ev => is_dispatch ev = true)
         (trace_of (doIteration_actions e nameToTool actions steps w)).
Proof.
  revert steps w. induction actions as [|action actions IH]; intros steps w.
  - by constructor.
  - simpl. destruct (checkRepeatedAction steps action) as [steps1 [err|]];
      [by constructor|].
    rewrite trace_of_bind.
    pose proof (doAction_dispatch e steps1 nameToTool action w) as Hact.
    destruct (doAction e steps1 nameToTool action w)
      as [[steps2 [err|]] w2 tr2|w2 tr2]; simpl in *;
      rewrite ?app_nil_r; [done| |done].
    apply Forall_app. split; [done|apply IH].
Qed.

Lemma doIteration_on_finish e steps nameToTool inputs w :
  Forall (fun ev => finish_planned ev = false)
         (trace_of (doIteration texts e steps nameToTool inputs w)) ->
  count is_on_finish
        (trace_of (doIteration texts e steps nameToTool inputs w)) = 0%nat.
Proof.
  rewrite doIteration_unfold.
  destruct (Plan (ExAgent e) w steps inputs) as [w' [[actions finish] err]].
  rewrite trace_of_after. intros Hnf. apply Forall_app in Hnf as [Hplan _].
  apply Forall_cons in Hplan as [Hplan _].
  rewrite count_app, count_cons, count_nil. simpl.
  unfold doIteration_planned.
  destruct (recoverable e err) as [[err' handler]|]; [done|].
  destruct err as [err|]; [done|].
  destruct finish as [finish|]; [done|].
  destruct actions as [|action actions]; [done|].
  apply count_none.
  eapply Forall_impl; [apply doIteration_actions_dispatch|].
  by intros [].
Qed.

Lemma Call_for_on_finish e nameToTool inputs range steps w :
  Forall (fun ev => finish_planned ev = false)
         (trace_of (Call_for texts e nameToTool inputs range steps w)) ->
  count is_on_finish
        (trace_of (Call_for texts e nameToTool inputs range steps w)) = 0%nat.
Proof.
  revert steps w. induction range as [|i range IH]; intros steps w.
  - done.
  - simpl. rewrite trace_of_bind.
    pose proof (doIteration_on_finish e steps nameToTool inputs w) as Hit.
    destruct (doIteration texts e steps nameToTool inputs w)
      as [[[steps1 finish] err] w1 tr1|w1 tr1]; simpl in Hit; [|done].
    intros Hnf. apply Forall_app in Hnf as [Hnf1 Hnf2].
    rewrite count_app, (Hit Hnf1).
    destruct (go_notnil finish || is_some err); [done|].
    by rewrite IH.
Qed.

(** C4 (amended). When the loop of [Call] is left at its end, the planner
    having returned no finish: [Call] returns [ErrNotFinished]; the
    outputs are the empty map when [ReturnIntermediateSteps] is not set
    and hold the ledger under ["intermediateSteps"] when it is set; the
    planner was asked [MaxIterations] times; the handler, when one is
    configured, was notified of no finish during the loop and is notified
    once at the end, with the return values
    [{"output": ErrNotFinished.Error()}] and the ledger. *)
Theorem C4_not_finished e order inputs steps w w1 tr :
  inputsToString texts order = inl inputs ->
  Call_for texts e (getNameToTool (GetTools (ExAgent e))) inputs
           (seqZ 0 (MaxIterations e)) [] w = Ok (inl steps) w1 tr ->
  Forall (fun ev => finish_planned ev = false) tr ->
  Call texts e order w =
    Ok (exhaustedOutputs e steps, Some ErrNotFinished)
       (notifiedWorld texts e steps w1)
       (tr ++ notifyNotFinished texts e steps) /\
  exhaustedOutputs e steps =
    (if ReturnIntermediateSteps e
     then mkmap {[ "intermediateSteps" := schema.AnySteps steps ]}
     else mkmap ∅) /\
  count is_plan tr = Z.to_nat (MaxIterations e) /\
  count is_on_finish tr = 0%nat /\
  notifyNotFinished texts e steps =
    match CallbacksHandler e with
    | Some _ =>
        [EvHandleAgentFinish
           (schema.mkFinish
              (mkmap {[ "output" :=
                          schema.AnyString (Error texts ErrNotFinished) ]}))
           steps]
    | None => []
    end.
Proof.
  intros Hin Hfor Hnf. split_and!.
  - by apply (Call_exhausted e order inputs).
  - done.
  - rewrite (Call_for_exhausted_plans _ _ _ _ _ _ _ _ _ Hfor).
    apply length_seqZ.
  - pose proof (Call_for_on_finish e (getNameToTool (GetTools (ExAgent e)))
                  inputs (seqZ 0 (MaxIterations e)) [] w) as Hc.
    rewrite Hfor in Hc. by apply Hc.
  - done.
Qed.

(** ** The registry and the name "none" *)

Lemma upper_lower_byte c : upper_byte (lower_byte c) = upper_byte c.
Proof. by destruct c as [[] [] [] [] [] [] [] []]. Qed.

Lemma lower_upper_byte c : lower_byte (upper_byte c) = lower_byte c.
Proof. by destruct c as [[] [] [] [] [] [] [] []]. Qed.

Lemma ToUpper_ToLower s : ToUpper (ToLower s) = ToUpper s.
Proof. induction s as [|c s IH]; simpl; [done|]. by rewrite upper_lower_byte, IH. Qed.

Lemma ToLower_ToUpper s : ToLower (ToUpper s) = ToLower s.
Proof. induction s as [|c s IH]; simpl; [done|]. by rewrite lower_upper_byte, IH. Qed.

(** "none" in any casing *)
Lemma none_any_casing s : ToLower s = "none" <-> ToUpper s = "NONE".
Proof.
  split; intros H.
  - by rewrite <- ToUpper_ToLower, H.
  - by rewrite <- ToLower_ToUpper, H.
Qed.

Lemma registry_lookup_Some (t : list (tools.Tool World))
    (m : gmap string (tools.Tool World)) k tool :
  foldl (fun acc tool => <[ToUpper (tools.Name tool) := tool]> acc) m t !! k
    = Some tool ->
  (tool ∈ t /\ ToUpper (tools.Name tool) = k) \/ m !! k = Some tool.
Proof.
  revert m. induction t as [|t0 t IH]; intros m; simpl; [by right|].
  intros H. apply IH in H as [[Hin Hk]|H].
  - left. split; [by apply list_elem_of_further|done].
  - destruct (decide (ToUpper (tools.Name t0) = k)) as [Heq|Hne].
    + subst k. rewrite lookup_insert_eq in H. injection H as <-.
      left. split; [apply list_elem_of_here|done].
    + rewrite lookup_insert_ne in H by done. by right.
Qed.

Lemma registry_keeps (t : list (tools.Tool World))
    (m : gmap string (tools.Tool World)) k :
  is_Some (m !! k) ->
  is_Some (foldl (fun acc tool => <[ToUpper (tools.Name tool) := tool]> acc)
                 m t !! k).
Proof.
  revert m. induction t as [|t0 t IH]; intros m Hm; simpl; [done|].
  apply IH. destruct (decide (ToUpper (tools.Name t0) = k)) as [<-|Hne].
  - by rewrite lookup_insert_eq.
  - by rewrite lookup_insert_ne.
Qed.

Lemma registry_lookup_is_Some (t : list (tools.Tool World))
    (m : gmap string (tools.Tool World)) k :
  (exists tool, tool ∈ t /\ ToUpper (tools.Name tool) = k) ->
  is_Some (foldl (fun acc tool => <[ToUpper (tools.Name tool) := tool]> acc)
                 m t !! k).
Proof.
  revert m. induction t as [|t0 t IH]; intros m (tool & Hin & Hk).
  - by apply elem_of_nil in Hin.
  - simpl. apply elem_of_cons in Hin as [->|Hin].
    + apply registry_keeps. subst k. by rewrite lookup_insert_eq.
    + apply IH. by exists tool.
Qed.

(** A name resolves iff its upper-case form is that of a registered tool,
    and it resolves to such a tool. *)
Lemma getNameToTool_Some (t : list (tools.Tool World)) k tool :
  go_lookup (getNameToTool t) k = Some tool ->
  tool ∈ t /\ ToUpper (tools.Name tool) = k.
Proof.
  unfold getNameToTool. destruct (length t =? 0)%nat; [done|]. simpl.
  intros H. by apply registry_lookup_Some in H as [H|H].
Qed.

Lemma getNameToTool_is_Some (t : list (tools.Tool World)) k :
  (exists tool, tool ∈ t /\ ToUpper (tools.Name tool) = k) ->
  is_Some (go_lookup (getNameToTool t) k).
Proof.
  intros Hex. unfold getNameToTool.
  destruct t as [|t0 t]; [by destruct Hex as (? & ?%elem_of_nil & _)|].
  by apply registry_lookup_is_Some.
Qed.

Lemma getNameToTool_None (t : list (tools.Tool World)) k :
  (forall tool, tool ∈ t -> ToUpper (tools.Name tool) <> k) ->
  go_lookup (getNameToTool t) k = None.
Proof.
  intros Hno. destruct (go_lookup (getNameToTool t) k) as [tool|] eqn:H;
    [|done].
  apply getNameToTool_Some in H as [Hin Hk]. by destruct (Hno tool).
Qed.

(** what [doAction] does with a resolved tool *)
Lemma doAction_resolved e steps nameToTool action w tool :
  go_lookup nameToTool (ToUpper (schema.Tool action)) = Some tool ->
  doAction e steps nameToTool action w =
  after (notifyAction e action)
    (let '(w', (observation, err)) :=
       tools.Call tool (actionNotified e action w) steps
                  (schema.ToolInput action) in
     Ok match err with
        | Some err => ([], Some err)
        | None => (steps ++ [schema.mkStep action observation], None)
        end
        w' [EvToolCall (tools.Name tool) steps (schema.ToolInput action)
                       observation err]).
Proof. intros H. by rewrite doAction_unfold, H. Qed.

(** what [doAction] does with a name that does not resolve *)
Lemma doAction_unresolved e steps nameToTool action w :
  go_lookup nameToTool (ToUpper (schema.Tool action)) = None ->
  doAction e steps nameToTool action w =
  Ok (steps ++ [if bool_decide (ToLower (schema.Tool action) = "none")
                then finalAnswerStep action
                else invalidToolStep action], None)
     (actionNotified e action w) (notifyAction e action).
Proof. intros H. rewrite doAction_unfold, H. simpl. by rewrite app_nil_r. Qed.

(** C9. The registry is looked up before the name is compared with
    "none".  For an action whose tool name is "none" in any casing: if a
    tool named "none" in any casing is registered, the name resolves to
    such a tool and [doAction] calls it, appending its observation or
    returning its error; if no such tool is registered, [doAction] calls
    no tool and appends the final-answer step. *)
Theorem C9_registered_none_tool
    e steps (t : list (tools.Tool World)) action w :
  ToLower (schema.Tool action) = "none" ->
  ((exists tool, tool ∈ t /\ ToLower (tools.Name tool) = "none") ->
   exists tool,
     tool ∈ t /\ ToLower (tools.Name tool) = "none" /\
     go_lookup (getNameToTool t) (ToUpper (schema.Tool action)) = Some tool /\
     doAction e steps (getNameToTool t) action w =
     after (notifyAction e action)
       (let '(w', (observation, err)) :=
          tools.Call tool (actionNotified e action w) steps
                     (schema.ToolInput action) in
        Ok match err with
           | Some err => ([], Some err)
           | None => (steps ++ [schema.mkStep action observation], None)
           end
           w' [EvToolCall (tools.Name tool) steps (schema.ToolInput action)
                          observation err])) /\
  ((forall tool, tool ∈ t -> ToLower (tools.Name tool) <> "none") ->
   doAction e steps (getNameToTool t) action w =
   Ok (steps ++ [finalAnswerStep action], None)
      (actionNotified e action w) (notifyAction e action)).
Proof.
  intros Hnone. pose proof Hnone as Hup. apply none_any_casing in Hup.
  split.
  - intros (tool0 & Hin0 & Hname0).
    destruct (getNameToTool_is_Some t (ToUpper (schema.Tool action)))
      as [tool Hlook].
    { exists tool0. split; [done|]. rewrite Hup. by apply none_any_casing. }
    exists tool. pose proof Hlook as [Hin Hname]%getNameToTool_Some.
    split_and!; [done| |done|by apply doAction_resolved].
    apply none_any_casing. by rewrite Hname.
  - intros Hno. rewrite doAction_unresolved.
    + by rewrite bool_decide_eq_true_2.
    + apply getNameToTool_None. intros tool Hin Hname.
      apply (Hno tool Hin). apply none_any_casing. by rewrite Hname.
Qed.

(** ** Tools that do not resolve, tools that fail *)

Lemma dispatchAll_snoc e nameToTool pre action steps0 w0 steps w tr steps' w' tr' :
  dispatchAll e nameToTool pre steps0 w0 = Some (steps, w, tr) ->
  checkRepeatedAction steps action = (steps, None) ->
  doAction e steps nameToTool action w = Ok (steps', None) w' tr' ->
  dispatchAll e nameToTool (pre ++ [action]) steps0 w0
    = Some (steps', w', tr ++ tr').
Proof.
  revert steps0 w0 tr.
  induction pre as [|a pre IH]; intros steps0 w0 tr; simpl.
  - intros [= <- <- <-] -> ->. by rewrite app_nil_r.
  - destruct (checkRepeatedAction steps0 a) as [steps1 [err|]]; [done|].
    destruct (doAction e steps1 nameToTool a w0)
      as [[steps2 [err|]] w2 tr2|]; [done| |done].
    destruct (dispatchAll e nameToTool pre steps2 w2)
      as [[[steps3 w3] tr3]|] eqn:Hpre; [|done].
    intros [= <- <- <-] Hcheck Hact.
    rewrite (IH _ _ _ Hpre Hcheck Hact). by rewrite app_assoc.
Qed.

(** C7 (amended). An action that passed the repetition check is
    dispatched.  If its tool name does not resolve and is not "none" in
    any casing, exactly one step saying that the tool is not valid is
    appended, no tool is called, and the loop over the batch goes on with
    the actions after it.  If the name resolves and the call of the tool
    returns an error, [doAction] returns that error, and [Call] returns
    nil outputs and that same error; the failed call is the last event of
    the trace: nothing is retried and nobody is notified. *)
Theorem C7_unresolved_tool_and_failing_tool
    e order w0 inputs i steps0 wp tr0 w1 pre action post steps w tr :
  let nameToTool := getNameToTool (GetTools (ExAgent e)) in
  let planned := EvPlan steps0 inputs (pre ++ action :: post) None None in
  reached texts e order w0 inputs i steps0 wp tr0 ->
  Plan (ExAgent e) wp steps0 inputs
    = (w1, (pre ++ action :: post, None, None)) ->
  dispatchAll e nameToTool pre steps0 w1 = Some (steps, w, tr) ->
  ~ repeated steps action ->
  match go_lookup nameToTool (ToUpper (schema.Tool action)) with
  | None =>
      ToLower (schema.Tool action) <> "none" ->
      doAction e steps nameToTool action w
        = Ok (steps ++ [invalidToolStep action], None)
             (actionNotified e action w) (notifyAction e action) /\
      count is_tool_call (notifyAction e action) = 0%nat /\
      doIteration_actions e nameToTool (pre ++ action :: post) steps0 w1
        = after (tr ++ notifyAction e action)
            (doIteration_actions e nameToTool post
               (steps ++ [invalidToolStep action])
               (actionNotified e action w))
  | Some tool =>
      forall w' observation err,
        tools.Call tool (actionNotified e action w) steps
                   (schema.ToolInput action)
          = (w', (observation, Some err)) ->
        let failed := EvToolCall (tools.Name tool) steps
                        (schema.ToolInput action) observation (Some err) in
        doAction e steps nameToTool action w
          = Ok ([], Some err) w' (notifyAction e action ++ [failed]) /\
        Call texts e order w0
          = Ok (nilmap, Some err) w'
               (tr0 ++ planned :: tr ++ notifyAction e action ++ [failed])
  end.
Proof.
  intros nameToTool planned Hreach Hplan Hpre Hfresh.
  pose proof (checkRepeatedAction_fresh _ _ Hfresh) as Hcheck.
  destruct (go_lookup nameToTool (ToUpper (schema.Tool action)))
    as [tool|] eqn:Hlook.
  - intros w' observation err Hcall failed.
    assert (doAction e steps nameToTool action w
            = Ok ([], Some err) w' (notifyAction e action ++ [failed]))
      as Hact.
    { by rewrite (doAction_resolved _ _ _ _ _ _ Hlook), Hcall. }
    split; [done|].
    rewrite (Call_reached _ _ _ _ _ _ _ _ Hreach).
    assert (doIteration texts e steps0 nameToTool inputs wp
            = Ok ([], nilmap, Some err) w'
                 (planned :: tr ++ notifyAction e action ++ [failed]))
      as Hit.
    { rewrite (doIteration_actions_planned _ _ _ _ _ _ _ Hplan)
        by (by destruct pre).
      rewrite (doIteration_actions_app _ _ _ _ _ _ _ _ _ Hpre).
      simpl. rewrite Hcheck. rewrite (bind_Ok _ _ _ _ _ _ Hact).
      simpl. by rewrite !app_nil_r. }
    by rewrite (Call_rest_step _ _ _ _ _ _ _ _ _ _ _ _ Hit).
  - intros Hnone.
    assert (doAction e steps nameToTool action w
            = Ok (steps ++ [invalidToolStep action], None)
                 (actionNotified e action w) (notifyAction e action))
      as Hact.
    { rewrite (doAction_unresolved _ _ _ _ _ Hlook).
      by rewrite bool_decide_eq_false_2. }
    split_and!; [done| |].
    + unfold notifyAction. by destruct (CallbacksHandler e).
    + replace (pre ++ action :: post) with ((pre ++ [action]) ++ post)
        by (by rewrite <- app_assoc).
      apply doIteration_actions_app.
      by apply (dispatchAll_snoc _ _ _ _ _ _ steps w).
Qed.

(** ** The ledger grows *)

Lemma ledgers_app tr1 tr2 : ledgers (tr1 ++ tr2) = ledgers tr1 ++ ledgers tr2.
Proof. apply omap_app. Qed.

Lemma growing_weaken lo mid ls :
  lo `prefix_of` mid -> growing mid ls -> growing lo ls.
Proof.
  destruct ls as [|l ls]; [done|]. simpl. intros Hlo [Hmid Hls].
  split; [by etrans|done].
Qed.

Lemma growing_snoc lo ls hi :
  growing lo (ls ++ [hi]) -> growing lo ls /\ lo `prefix_of` hi.
Proof.
  revert lo. induction ls as [|l ls IH]; intros lo; simpl.
  - by intros [H _].
  - intros [Hlo Hls]. apply IH in Hls as [Hls Hhi].
    split_and!; [done|done|by etrans].
Qed.

(** ledgers growing up to [mid], then ledgers growing from [mid] *)
Lemma growing_app lo xs mid ys :
  growing lo (xs ++ [mid]) -> growing mid ys -> growing lo (xs ++ ys).
Proof.
  revert lo. induction xs as [|x xs IH]; intros lo; simpl.
  - intros [Hlo _] Hys. by apply (growing_weaken lo mid).
  - intros [Hlo Hxs] Hys. split; [done|by apply IH].
Qed.

Lemma growing_app_snoc lo xs mid ys hi :
  growing lo (xs ++ [mid]) -> growing mid (ys ++ [hi]) ->
  growing lo ((xs ++ ys) ++ [hi]).
Proof. rewrite <- app_assoc. apply growing_app. Qed.

Lemma growing_refl_snoc lo : growing lo ([] ++ [lo]).
Proof. by simpl. Qed.

Lemma checkRepeatedAction_range_grows rest steps action :
  steps `prefix_of` (checkRepeatedAction_range rest steps action).1.
Proof.
  induction rest as [|step rest IH]; simpl; [done|].
  destruct (_ && _); [by apply prefix_app_r|done].
Qed.

Lemma doAction_grows e steps nameToTool action w steps' err w' tr :
  doAction e steps nameToTool action w = Ok (steps', err) w' tr ->
  match err with
  | None => growing steps (ledgers tr ++ [steps'])
  | Some _ => growing steps (ledgers tr) /\ steps' = [] /\
              Exists (fun ev => tool_failed ev = true) tr
  end.
Proof.
  rewrite doAction_unfold.
  assert (ledgers (notifyAction e action) = []) as Hn.
  { unfold notifyAction. by destruct (CallbacksHandler e). }
  destruct (go_lookup nameToTool _) as [tool|].
  - destruct (tools.Call tool _ steps _) as [w2 [observation [err2|]]];
      simpl; intros [= <- <- <- <-]; rewrite ledgers_app, Hn; simpl.
    + repeat split; try done.
      apply Exists_app. right. by constructor.
    + repeat split; try done. by apply prefix_app_r.
  - simpl. intros [= <- <- <- <-]. rewrite ledgers_app, Hn. simpl.
    split; [by apply prefix_app_r|done].
Qed.

Lemma doAction_Ok e steps nameToTool action w :
  exists r w' tr, doAction e steps nameToTool action w = Ok r w' tr.
Proof.
  rewrite doAction_unfold. destruct (go_lookup nameToTool _) as [tool|].
  - destruct (tools.Call tool _ steps _) as [w2 [observation err2]].
    simpl. by eauto.
  - simpl. by eauto.
Qed.

(** the invariant of a part of the loop that starts from [steps]: the
    ledgers it shows grow from [steps]; if it ends with no error they
    grow up to the ledger it ends with *)
Lemma doIteration_actions_grows e nameToTool actions steps w :
  growing steps
    (ledgers (trace_of (doIteration_actions e nameToTool actions steps w))) /\
  forall steps' finish err w' tr,
    doIteration_actions e nameToTool actions steps w
      = Ok (steps', finish, err) w' tr ->
    match err with
    | None => growing steps (ledgers tr ++ [steps'])
    | Some _ => steps' = [] /\ Exists (fun ev => tool_failed ev = true) tr
    end.
Proof.
  revert steps w. induction actions as [|action actions IH]; intros steps w.
  - simpl. split; [done|]. by intros ????? [= <- <- <- <- <-].
  - simpl. pose proof (checkRepeatedAction_range_grows steps steps action)
      as Hcheck. fold (checkRepeatedAction steps action) in Hcheck.
    destruct (checkRepeatedAction steps action) as [steps1 [err1|]];
      simpl in Hcheck.
    { simpl. split; [done|]. by intros ????? [= <- <- <- <- <-]. }
    destruct (doAction_Ok e steps1 nameToTool action w)
      as ([steps2 err2] & w2 & tr2 & Hact).
    pose proof (doAction_grows _ _ _ _ _ _ _ _ _ Hact) as Hg.
    rewrite (bind_Ok _ _ _ _ _ _ Hact).
    destruct err2 as [err2|].
    + destruct Hg as (Hg & -> & Hex). simpl. rewrite app_nil_r.
      split; [by apply (growing_weaken steps steps1)|].
      by intros ????? [= <- <- <- <- <-].
    + destruct (IH steps2 w2) as [IH1 IH2].
      apply (growing_weaken steps steps1) in Hg; [|done].
      rewrite trace_of_after, ledgers_app.
      split; [by apply (growing_app _ _ steps2)|].
      intros steps' finish err w' tr Hrest.
      destruct (doIteration_actions e nameToTool actions steps2 w2)
        as [[[steps3 finish3] err3] w3 tr3|] eqn:Hrec; [|done].
      simpl in Hrest. injection Hrest as <- <- <- <- <-.
      specialize (IH2 _ _ _ _ _ eq_refl). destruct err3 as [err3|].
      * destruct IH2 as [-> Hex]. split; [done|].
        apply Exists_app. by right.
      * rewrite ledgers_app. by apply (growing_app_snoc _ _ steps2).
Qed.

Lemma growing_snoc_le lo xs mid hi :
  growing lo (xs ++ [mid]) -> mid `prefix_of` hi -> growing lo (xs ++ [hi]).
Proof. intros Hxs Hhi. by apply (growing_app lo xs mid [hi]). Qed.

Lemma doIteration_grows e steps nameToTool inputs w :
  growing steps
    (ledgers (trace_of (doIteration texts e steps nameToTool inputs w))) /\
  forall steps' finish err w' tr,
    doIteration texts e steps nameToTool inputs w
      = Ok (steps', finish, err) w' tr ->
    match err with
    | None => growing steps (ledgers tr ++ [steps'])
    | Some _ => steps `prefix_of` steps' \/
                (steps' = [] /\ Exists (fun ev => tool_failed ev = true) tr)
    end.
Proof.
  rewrite doIteration_unfold.
  destruct (Plan (ExAgent e) w steps inputs) as [w1 [[actions finish] err]].
  rewrite trace_of_after. unfold doIteration_planned.
  destruct (recoverable e err) as [[err' handler]|].
  { simpl. split; [done|]. intros ????? [= <- <- <- <- <-]. simpl.
    split_and!; [done|by apply prefix_app_r|done]. }
  destruct err as [err|].
  { simpl. split; [done|]. intros ????? [= <- <- <- <- <-]. by left. }
  destruct finish as [finish|].
  { assert (growing steps (ledgers (notifyFinish e finish steps) ++ [steps]))
      as Hn.
    { unfold notifyFinish. by destruct (CallbacksHandler e). }
    rewrite trace_of_after, trace_of_bind. unfold bind.
    pose proof (getReturn_trace e finish steps
                  (finishNotified e finish steps w1)) as Hret.
    destruct (getReturn e finish steps _) as [returnValues w2 tr2|w2 tr2];
      simpl in Hret; subst tr2; simpl; rewrite !app_nil_r.
    - split; [by apply growing_snoc in Hn as [Hn _]|].
      by intros ????? [= <- <- <- <- <-].
    - split; [by apply growing_snoc in Hn as [Hn _]|done]. }
  destruct actions as [|action actions].
  { simpl. split; [done|]. intros ????? [= <- <- <- <- <-]. by left. }
  destruct (doIteration_actions_grows e nameToTool (action :: actions) steps w1)
    as [Hg1 Hg2].
  split; [by simpl|].
  intros steps' finish err w' tr Hres.
  destruct (doIteration_actions e nameToTool (action :: actions) steps w1)
    as [[[steps3 finish3] err3] w3 tr3|]; [|done].
  simpl in Hres. injection Hres as <- <- <- <- <-.
  specialize (Hg2 _ _ _ _ _ eq_refl). destruct err3 as [err3|].
  - right. destruct Hg2 as [-> Hex]. split; [done|]. by constructor 2.
  - by simpl.
Qed.

Lemma lastChance_grows e i steps : steps `prefix_of` lastChance e i steps.
Proof. unfold lastChance. destruct (_ && _); [by apply prefix_app_r|done]. Qed.

Lemma Call_for_grows e nameToTool inputs range steps w :
  growing steps
    (ledgers (trace_of (Call_for texts e nameToTool inputs range steps w))) /\
  forall steps' w' tr,
    Call_for texts e nameToTool inputs range steps w = Ok (inl steps') w' tr ->
    growing steps (ledgers tr ++ [steps']).
Proof.
  revert steps w. induction range as [|i range IH]; intros steps w.
  - simpl. split; [done|]. by intros ??? [= <- <- <-].
  - simpl. destruct (doIteration_grows e steps nameToTool inputs w)
      as [Hg1 Hg2].
    destruct (doIteration texts e steps nameToTool inputs w)
      as [[[steps1 finish] err] w1 tr1|w1 tr1] eqn:Hit.
    2:{ rewrite (bind_Panic _ _ _ _ _ Hit). by split. }
    rewrite (bind_Ok _ _ _ _ _ _ Hit). cbv beta iota.
    specialize (Hg2 _ _ _ _ _ eq_refl).
    destruct (go_notnil finish || is_some err) eqn:Hstop.
    { simpl. rewrite app_nil_r. by split. }
    apply orb_false_iff in Hstop as [_ Herr]. destruct err; [done|].
    apply (growing_snoc_le _ _ _ (lastChance e i steps1)) in Hg2;
      [|apply lastChance_grows].
    destruct (IH (lastChance e i steps1) w1) as [IH1 IH2].
    rewrite trace_of_after, ledgers_app.
    split; [by apply (growing_app _ _ (lastChance e i steps1))|].
    intros steps' w' tr Hres.
    destruct (Call_for texts e nameToTool inputs range _ w1)
      as [[steps4|[finish4 err4]] w4 tr4|]; try done.
    simpl in Hres. injection Hres as <- <- <-.
    rewrite ledgers_app.
    apply (growing_app_snoc _ _ (lastChance e i steps1)); [done|].
    by apply (IH2 _ w4 tr4).
Qed.

(** Every ledger that [Call] shows to the planner, to a tool or to the
    handler extends the one shown before. *)
Lemma Call_grows e order w :
  growing [] (ledgers (trace_of (Call texts e order w))).
Proof.
  destruct (inputsToString texts order) as [inputs|err] eqn:Hin.
  2:{ unfold Call. by rewrite Hin. }
  destruct (Call_for_grows e (getNameToTool (GetTools (ExAgent e))) inputs
              (seqZ 0 (MaxIterations e)) [] w) as [Hg1 Hg2].
  destruct (Call_for texts e (getNameToTool (GetTools (ExAgent e))) inputs
              (seqZ 0 (MaxIterations e)) [] w)
    as [[steps|[finish err]] w1 tr1|w1 tr1] eqn:Hfor.
  - rewrite (Call_exhausted e order inputs steps w w1 tr1 Hin Hfor).
    simpl. rewrite ledgers_app. specialize (Hg2 _ _ _ eq_refl).
    unfold notifyNotFinished. destruct (CallbacksHandler e); simpl; [done|].
    rewrite app_nil_r. by apply growing_snoc in Hg2 as [Hg2 _].
  - by rewrite (Call_returned e order inputs finish err w w1 tr1 Hin Hfor).
  - unfold Call. rewrite Hin. cbv zeta. by rewrite (bind_Panic _ _ _ _ _ Hfor).
Qed.

(** C5 (amended). The ledger does not shrink while the [Call] goes on:
    the repetition check, a dispatch that returns no error, an iteration
    (its planner call, its recovery from an unparsable plan, its batch of
    actions) in which no tool fails, and the last-chance hint each give a
    ledger that extends the one they were given, and every ledger shown to
    the planner, to a tool or to the handler extends the one shown before
    it.  A dispatch whose tool fails returns the nil ledger with the
    error. *)
Theorem C5_ledger_grows e order w0 :
  (forall steps action,
     steps `prefix_of` (checkRepeatedAction steps action).1) /\
  (forall steps nameToTool action w steps' err w' tr,
     doAction e steps nameToTool action w = Ok (steps', err) w' tr ->
     match err with
     | None => steps `prefix_of` steps'
     | Some _ => steps' = [] /\ Exists (fun ev => tool_failed ev = true) tr
     end) /\
  (forall steps nameToTool inputs w steps' finish err w' tr,
     doIteration texts e steps nameToTool inputs w
       = Ok (steps', finish, err) w' tr ->
     steps `prefix_of` steps' \/
     (steps' = [] /\ is_Some err /\
      Exists (fun ev => tool_failed ev = true) tr)) /\
  (forall i steps, steps `prefix_of` lastChance e i steps) /\
  growing [] (ledgers (trace_of (Call texts e order w0))).
Proof.
  split_and!.
  - intros steps action. apply checkRepeatedAction_range_grows.
  - intros steps nameToTool action w steps' err w' tr Hact.
    apply doAction_grows in Hact. destruct err as [err|].
    + by destruct Hact as (_ & ? & ?).
    + by apply growing_snoc in Hact as [_ ?].
  - intros steps nameToTool inputs w steps' finish err w' tr Hit.
    destruct (doIteration_grows e steps nameToTool inputs w) as [_ Hg].
    specialize (Hg _ _ _ _ _ Hit). destruct err as [err|].
    + destruct Hg as [Hg|[-> Hex]]; [by left|right]. by eauto.
    + left. by apply growing_snoc in Hg as [_ ?].
  - apply lastChance_grows.
  - apply Call_grows.
Qed.

End Properties.

(** * The properties at work on the executors above *)

(** ** Scenarios of the spec *)

(** Scenario C: the same action in two rounds.  The second one is not
    dispatched, the planner is asked a third time and its finish is what
    [Call] returns. *)
Example repeater_run :
  Call texts0 exRepeater orderQ tt =
  Ok (mkmap {[ "output" := schema.AnyString "4" ]}, None) tt
     [EvPlan [] inputsQ [calcAction] None None;
      EvToolCall "calc" [] "2+2" "4" None;
      EvPlan [calcStep] inputsQ [calcAction] None None;
      EvPlan [calcStep; repeatedStep calcAction; lastChanceStep] inputsQ
             [] (Some finish4) None].
Proof. vm_compute. reflexivity. Qed.

(** Scenario A: one search, then the finish, which [Call] returns. *)
Example geographer_run :
  Call texts0 exGeographer orderQ tt =
  Ok (mkmap {[ "output" := schema.AnyString "Paris" ]}, None) tt
     [EvPlan [] inputsQ [capitalAction] None None;
      EvToolCall "search" [] "capital of France" "Paris" None;
      EvPlan [schema.mkStep capitalAction "Paris"] inputsQ
             [] (Some finishParis) None].
Proof. vm_compute. reflexivity. Qed.

(** Scenarios B and E: one iteration, an unregistered tool, no finish. *)
Example wanderer_run :
  Call texts0 exWanderer orderQ tt =
  Ok (mkmap {[ "intermediateSteps" := schema.AnySteps [fooStep] ]},
      Some ErrNotFinished) tt
     [EvPlan [] inputsQ [fooAction] None None;
      EvHandleAgentAction fooAction;
      EvHandleAgentFinish
        (schema.mkFinish
           (mkmap {[ "output" :=
                       schema.AnyString
                         "agent not finished before max iterations" ]}))
        [fooStep]].
Proof. vm_compute. reflexivity. Qed.

(** Scenario D: the name NONE calls no tool; the planner is asked again
    with the final-answer step in the ledger. *)
Example shrugger_run :
  Call texts0 exShrugger orderQ tt =
  Ok (mkmap {[ "output" := schema.AnyString "4" ]}, None) tt
     [EvPlan [] inputsQ [noneAction] None None;
      EvPlan [finalAnswerStep noneAction] inputsQ [] (Some finish4) None].
Proof. vm_compute. reflexivity. Qed.

(** Two actions of one plan are two tool calls in one iteration. *)
Example doubler_run :
  count is_plan (trace_of (Call texts0 exDoubler orderQ tt)) = 1%nat /\
  count is_tool_call (trace_of (Call texts0 exDoubler orderQ tt)) = 2%nat.
Proof. split; vm_compute; reflexivity. Qed.

(** ** Repeated actions *)

Lemma repeater_reached :
  reached texts0 exRepeater orderQ tt inputsQ 1 [calcStep] tt repeaterTrace1.
Proof.
  split_and!; [vm_compute; reflexivity|done|done|vm_compute; reflexivity].
Defined.

Lemma repeater_repeats : repeated [calcStep] calcAction.
Proof. exists calcStep. split_and!; [apply list_elem_of_here|done|done]. Defined.

Lemma C1_witness :
  reached texts0 exRepeater orderQ tt inputsQ 1 [calcStep] tt repeaterTrace1 /\
  repeated [calcStep] calcAction /\
  doIteration texts0 exRepeater [calcStep]
              (getNameToTool (GetTools (ExAgent exRepeater))) inputsQ tt
    = Ok ([calcStep] ++ [repeatedStep calcAction], nilmap, None) tt
         [EvPlan [calcStep] inputsQ [calcAction] None None] /\
  Call texts0 exRepeater orderQ tt
    = after (repeaterTrace1
               ++ [EvPlan [calcStep] inputsQ [calcAction] None None])
        (Call_rest texts0 exRepeater
           (getNameToTool (GetTools (ExAgent exRepeater))) inputsQ
           (remaining exRepeater 1)
           (lastChance exRepeater 1 ([calcStep] ++ [repeatedStep calcAction]))
           tt).
Proof.
  destruct (C1_repeated_action_ends_iteration texts0 exRepeater orderQ tt
              inputsQ 1 [calcStep] tt repeaterTrace1 tt [] calcAction []
              [calcStep] tt [] repeater_reached eq_refl eq_refl
              repeater_repeats) as (_ & Hit & Hcall & _).
  split_and!; [exact repeater_reached|exact repeater_repeats|exact Hit|
               exact Hcall].
Defined.

(** C1, as stated, fails on [exRepeater]: in its second iteration the
    planner returns an action that is in the ledger, and the [Call] does
    not stop there with empty outputs; the planner is asked a third time
    and the outputs are its finish. *)
Lemma C1_counterexample :
  reached texts0 exRepeater orderQ tt inputsQ 1 [calcStep] tt repeaterTrace1 /\
  Plan (ExAgent exRepeater) tt [calcStep] inputsQ
    = (tt, ([calcAction], None, None)) /\
  repeated [calcStep] calcAction /\
  count is_plan (trace_of (Call texts0 exRepeater orderQ tt)) = 3%nat /\
  ~ exists outputs err w tr,
      Call texts0 exRepeater orderQ tt = Ok (outputs, err) w tr /\
      empty_outputs outputs.
Proof.
  split_and!; [exact repeater_reached|done|exact repeater_repeats
              |by rewrite repeater_run|].
  intros (outputs & err & w & tr & Hcall & Hempty).
  rewrite repeater_run in Hcall. injection Hcall as <- <- <- <-.
  destruct Hempty as [Hnil|Hmap]; [done|].
  apply (f_equal (fun m => go_lookup m "output")) in Hmap.
  simpl in Hmap. by rewrite lookup_singleton_eq in Hmap.
Qed.

(** ** A finish whose return values are nil *)

(** C2, at a failing input.  The planner of [exQuitter] returns the zero
    finish, whose map of return values is nil, and no error.  [Call] does
    not return on it: the planner is asked again, and the [Call] ends with
    [ErrNotFinished].  With [ReturnIntermediateSteps] set, storing the
    ledger into the nil map panics. *)
Theorem C2_finish_with_nil_return_values :
  Plan (ExAgent exQuitter) tt [] inputsQ = (tt, ([], Some zeroFinish, None)) /\
  Call texts0 exQuitter orderQ tt =
    Ok (mkmap ∅, Some ErrNotFinished) tt
       [EvPlan [] inputsQ [] (Some zeroFinish) None;
        EvPlan [] inputsQ [] (Some zeroFinish) None] /\
  Call texts0 exQuitterSteps orderQ tt =
    Panic tt [EvPlan [] inputsQ [] (Some zeroFinish) None].
Proof. split_and!; [done|vm_compute; reflexivity|vm_compute; reflexivity]. Qed.

(** ** The iteration budget used up *)

Lemma wanderer_loop :
  Call_for texts0 exWanderer (getNameToTool (GetTools (ExAgent exWanderer)))
           inputsQ (seqZ 0 (MaxIterations exWanderer)) [] tt
    = Ok (inl [fooStep]) tt wandererTrace.
Proof. vm_compute. reflexivity. Defined.

Lemma wanderer_no_finish :
  Forall (fun ev => finish_planned ev = false) wandererTrace.
Proof. repeat constructor. Defined.

Lemma C4_witness :
  inputsToString texts0 orderQ = inl inputsQ /\
  Call_for texts0 exWanderer (getNameToTool (GetTools (ExAgent exWanderer)))
           inputsQ (seqZ 0 (MaxIterations exWanderer)) [] tt
    = Ok (inl [fooStep]) tt wandererTrace /\
  Forall (fun ev => finish_planned ev = false) wandererTrace /\
  Call texts0 exWanderer orderQ tt =
    Ok (exhaustedOutputs exWanderer [fooStep], Some ErrNotFinished)
       (notifiedWorld texts0 exWanderer [fooStep] tt)
       (wandererTrace ++ notifyNotFinished texts0 exWanderer [fooStep]) /\
  count is_plan wandererTrace = Z.to_nat (MaxIterations exWanderer) /\
  count is_on_finish wandererTrace = 0%nat.
Proof.
  assert (inputsToString texts0 orderQ = inl inputsQ) as Hin
    by (vm_compute; reflexivity).
  destruct (C4_not_finished texts0 exWanderer orderQ inputsQ [fooStep] tt tt
              wandererTrace Hin wanderer_loop wanderer_no_finish)
    as (Hcall & _ & Hplans & Hfinishes & _).
  split_and!; [exact Hin|exact wanderer_loop|exact wanderer_no_finish
              |exact Hcall|exact Hplans|exact Hfinishes].
Defined.

(** C4, as stated, fails on [exWanderer], whose
    [ReturnIntermediateSteps] is set: the loop is left at its end, no
    finish was planned, [Call] returns [ErrNotFinished], and the outputs
    are not empty: they hold the ledger under ["intermediateSteps"]. *)
Lemma C4_counterexample :
  Call_for texts0 exWanderer (getNameToTool (GetTools (ExAgent exWanderer)))
           inputsQ (seqZ 0 (MaxIterations exWanderer)) [] tt
    = Ok (inl [fooStep]) tt wandererTrace /\
  Forall (fun ev => finish_planned ev = false) wandererTrace /\
  exists outputs w tr,
    Call texts0 exWanderer orderQ tt
      = Ok (outputs, Some ErrNotFinished) w tr /\
    go_lookup outputs "intermediateSteps" = Some (schema.AnySteps [fooStep]) /\
    ~ empty_outputs outputs.
Proof.
  split_and!; [exact wanderer_loop|exact wanderer_no_finish|].
  exists (mkmap {[ "intermediateSteps" := schema.AnySteps [fooStep] ]}), tt,
    (wandererTrace
       ++ [EvHandleAgentFinish (notFinishedFinish texts0) [fooStep]]).
  split_and!; [vm_compute; reflexivity|apply lookup_singleton_eq|].
  intros [Hnil|Hmap]; [done|].
  apply (f_equal (fun m => go_lookup m "intermediateSteps")) in Hmap.
  simpl in Hmap. by rewrite lookup_singleton_eq in Hmap.
Qed.

(** ** The ledger after a tool has failed *)

Lemma C5_witness :
  doAction exRepeater [] (getNameToTool (GetTools (ExAgent exRepeater)))
           calcAction tt
    = Ok ([calcStep], None) tt [EvToolCall "calc" [] "2+2" "4" None] /\
  [] `prefix_of` [calcStep] /\
  growing [] (ledgers (trace_of (Call texts0 exRepeater orderQ tt))).
Proof.
  destruct (C5_ledger_grows texts0 exRepeater orderQ tt)
    as (_ & Hact & _ & _ & Hcall).
  assert (doAction exRepeater []
            (getNameToTool (GetTools (ExAgent exRepeater))) calcAction tt
          = Ok ([calcStep], None) tt [EvToolCall "calc" [] "2+2" "4" None])
    as Hrun by (vm_compute; reflexivity).
  split_and!; [exact Hrun|exact (Hact _ _ _ _ _ _ _ _ Hrun)|exact Hcall].
Defined.

(** C5, as stated, fails on a dispatch whose tool fails: [doAction] is
    given a ledger of one step and returns the nil ledger, which does not
    extend it; so does the iteration around it. *)
Lemma C5_counterexample :
  doAction exSearcher [fooStep]
           (getNameToTool (GetTools (ExAgent exSearcher))) searchAction tt
    = Ok ([], Some (Errorf "timeout")) tt
         [EvHandleAgentAction searchAction; searchFailed] /\
  ~ [fooStep] `prefix_of` (@nil AgentStep) /\
  exists tr,
    doIteration texts0 exSearcher [calcStep]
                (getNameToTool (GetTools (ExAgent exSearcher))) inputsQ tt
      = Ok ([], nilmap, Some (Errorf "timeout")) tt tr /\
    ~ [calcStep] `prefix_of` (@nil AgentStep).
Proof.
  split_and!; [vm_compute; reflexivity|by intros ?%prefix_nil_inv|].
  eexists. split; [vm_compute; reflexivity|by intros ?%prefix_nil_inv].
Qed.

(** ** Planner output that cannot be parsed *)

Lemma mumbler_handled_reached :
  reached texts0 exMumblerHandled orderQ tt inputsQ 0 [] tt [].
Proof.
  split_and!; [vm_compute; reflexivity|done|done|vm_compute; reflexivity].
Defined.

Lemma mumbler_reached :
  reached texts0 exMumbler orderQ tt inputsQ 0 [] tt [].
Proof.
  split_and!; [vm_compute; reflexivity|done|done|vm_compute; reflexivity].
Defined.

Lemma C6_witness :
  (reached texts0 exMumblerHandled orderQ tt inputsQ 0 [] tt [] /\
   errors_Is unparsable ErrUnableToParseOutput = true /\
   Call texts0 exMumblerHandled orderQ tt
     = after ([] ++ [EvPlan [] inputsQ [] None (Some unparsable)])
         (Call_rest texts0 exMumblerHandled
            (getNameToTool (GetTools (ExAgent exMumblerHandled))) inputsQ
            (remaining exMumblerHandled 0)
            (lastChance exMumblerHandled 0
               ([] ++ [schema.mkStep schema.zeroAction
                         ("Try again: " +:+ Error texts0 unparsable)]))
            tt)) /\
  (reached texts0 exMumbler orderQ tt inputsQ 0 [] tt [] /\
   Call texts0 exMumbler orderQ tt
     = Ok (nilmap, Some unparsable) tt
          ([] ++ [EvPlan [] inputsQ [] None (Some unparsable)])).
Proof.
  split.
  - destruct (C6_unparsable_output texts0 exMumblerHandled orderQ tt inputsQ
                0 [] tt [] tt [] None unparsable mumbler_handled_reached
                eq_refl eq_refl) as (_ & Hcall & _).
    split_and!; [exact mumbler_handled_reached|reflexivity|exact Hcall].
  - destruct (C6_unparsable_output texts0 exMumbler orderQ tt inputsQ
                0 [] tt [] tt [] None unparsable mumbler_reached
                eq_refl eq_refl) as [_ Hcall].
    split; [exact mumbler_reached|exact Hcall].
Defined.

(** ** Tools that do not resolve, tools that fail *)

Lemma searcher_reached :
  reached texts0 exSearcher orderQ tt inputsQ 0 [] tt [].
Proof.
  split_and!; [vm_compute; reflexivity|done|done|vm_compute; reflexivity].
Defined.

Lemma foo_fresh : ~ repeated [] fooAction.
Proof. intros (step & Hin & _). by apply elem_of_nil in Hin. Defined.

Lemma search_fresh : ~ repeated [fooStep] searchAction.
Proof.
  intros (step & Hin & Htool & _).
  apply list_elem_of_singleton in Hin. subst step. discriminate Htool.
Defined.

Lemma C7_witness :
  (reached texts0 exSearcher orderQ tt inputsQ 0 [] tt [] /\
   ~ repeated [] fooAction /\
   ToLower (schema.Tool fooAction) <> "none" /\
   doIteration_actions exSearcher
       (getNameToTool (GetTools (ExAgent exSearcher)))
       ([] ++ fooAction :: [searchAction]) [] tt
     = after ([] ++ notifyAction exSearcher fooAction)
         (doIteration_actions exSearcher
            (getNameToTool (GetTools (ExAgent exSearcher))) [searchAction]
            ([] ++ [invalidToolStep fooAction])
            (actionNotified exSearcher fooAction tt))) /\
  (~ repeated [fooStep] searchAction /\
   Call texts0 exSearcher orderQ tt
     = Ok (nilmap, Some (Errorf "timeout")) tt
          ([] ++ EvPlan [] inputsQ ([fooAction] ++ searchAction :: [])
                        None None
              :: [EvHandleAgentAction fooAction]
              ++ notifyAction exSearcher searchAction ++ [searchFailed])).
Proof.
  split.
  - pose proof (C7_unresolved_tool_and_failing_tool texts0 exSearcher orderQ
                  tt inputsQ 0 [] tt [] tt [] fooAction [searchAction] [] tt []
                  searcher_reached eq_refl eq_refl foo_fresh) as H.
    assert (ToLower (schema.Tool fooAction) <> "none") as Hname by done.
    destruct (H Hname) as (_ & _ & Hgo).
    split_and!; [exact searcher_reached|exact foo_fresh|exact Hname|exact Hgo].
  - pose proof (C7_unresolved_tool_and_failing_tool texts0 exSearcher orderQ
                  tt inputsQ 0 [] tt [] tt [fooAction] searchAction [] [fooStep]
                  tt [EvHandleAgentAction fooAction]
                  searcher_reached eq_refl eq_refl search_fresh) as H.
    destruct (H tt "" (Errorf "timeout") eq_refl) as [_ Hcall].
    split; [exact search_fresh|exact Hcall].
Defined.

(** C7, as stated, fails on the name "NONE" when no tool of that name is
    registered: the name does not resolve, and the one step appended does
    not say that the tool is not valid; it asks for the final answer. *)
Lemma C7_counterexample :
  go_lookup (getNameToTool (GetTools (ExAgent exSearcher)))
            (ToUpper (schema.Tool noneAction)) = None /\
  doAction exSearcher [] (getNameToTool (GetTools (ExAgent exSearcher)))
           noneAction tt
    = Ok ([finalAnswerStep noneAction], None) tt
         [EvHandleAgentAction noneAction] /\
  finalAnswerStep noneAction <> invalidToolStep noneAction.
Proof. split_and!; [vm_compute; reflexivity|vm_compute; reflexivity|done]. Qed.

(** ** Input validation *)

Lemma seven_ranges : ranges inputsSeven orderSeven.
Proof. unfold ranges, inputsSeven, orderSeven. by rewrite map_to_list_singleton. Defined.

Lemma C8_witness :
  ranges inputsSeven orderSeven /\
  (exists key value,
     inputsSeven !! key = Some value /\ assert_string value = None) /\
  exists key value err,
    inputsSeven !! key = Some value /\ assert_string value = None /\
    err = Errorf_w ErrExecutorInputNotString
            (Error texts0 ErrExecutorInputNotString +:+ ": " +:+ key) /\
    errors_Is err ErrExecutorInputNotString = true /\
    Call texts0 exRepeater orderSeven tt = Ok (nilmap, Some err) tt [].
Proof.
  assert (exists key value,
            inputsSeven !! key = Some value /\ assert_string value = None)
    as Hseven.
  { exists "input", (schema.AnyInt 7). split; [apply lookup_singleton_eq|done]. }
  split_and!; [exact seven_ranges|exact Hseven|].
  exact (C8_input_not_string texts0 exRepeater inputsSeven orderSeven tt
           seven_ranges Hseven).
Defined.

(** ** The registry and the name "none" *)

Lemma C9_witness :
  ToLower (schema.Tool noneAction) = "none" /\
  (exists tool, tool ∈ [calc; noneTool] /\ ToLower (tools.Name tool) = "none") /\
  exists tool,
    tool ∈ [calc; noneTool] /\ ToLower (tools.Name tool) = "none" /\
    go_lookup (getNameToTool [calc; noneTool])
              (ToUpper (schema.Tool noneAction)) = Some tool /\
    doAction exRepeater [] (getNameToTool [calc; noneTool]) noneAction tt =
    after (notifyAction exRepeater noneAction)
      (let '(w', (observation, err)) :=
         tools.Call tool (actionNotified exRepeater noneAction tt) []
                    (schema.ToolInput noneAction) in
       Ok match err with
          | Some err => ([], Some err)
          | None => ([] ++ [schema.mkStep noneAction observation], None)
          end
          w' [EvToolCall (tools.Name tool) [] (schema.ToolInput noneAction)
                         observation err]).
Proof.
  assert (exists tool,
            tool ∈ [calc; noneTool] /\ ToLower (tools.Name tool) = "none")
    as Hreg.
  { exists noneTool. split; [|done].
    apply list_elem_of_further, list_elem_of_here. }
  split_and!; [done|exact Hreg|].
  exact (proj1 (C9_registered_none_tool exRepeater [] [calc; noneTool]
                  noneAction tt eq_refl) Hreg).
Defined.

(** ** An iteration budget that is zero or negative *)

Lemma question_ranges : ranges inputsValuesQ orderQ.
Proof. unfold ranges, inputsValuesQ, orderQ. by rewrite map_to_list_singleton. Defined.

Lemma question_strings key value :
  inputsValuesQ !! key = Some value -> is_Some (assert_string value).
Proof.
  unfold inputsValuesQ. intros [_ <-]%lookup_singleton_Some. by eexists.
Defined.

Lemma C10_witness :
  MaxIterations exIdle <= 0 /\
  ranges inputsValuesQ orderQ /\
  Call texts0 exIdle orderQ tt =
    Ok (exhaustedOutputs exIdle [], Some ErrNotFinished)
       (notifiedWorld texts0 exIdle [] tt) (notifyNotFinished texts0 exIdle []).
Proof.
  assert (MaxIterations exIdle <= 0) as Hmax by done.
  split_and!; [exact Hmax|exact question_ranges|].
  exact (proj1 (C10_no_iterations texts0 exIdle inputsValuesQ orderQ tt
                  Hmax question_ranges question_strings)).
Defined.

(** * Further properties of the executor *)

Section MoreProperties.
Context {World : Type}.
Context (texts : SentinelTexts).

Implicit Types (e : Executor World) (steps : list AgentStep)
  (action : AgentAction) (w : World) (tr : list event)
  (nameToTool : gomap (tools.Tool World)) (inputs : gmap string string).

(** ** How an iteration can end *)

Lemma doIteration_actions_Ok e nameToTool actions steps w :
  exists steps' err w' tr,
    doIteration_actions e nameToTool actions steps w
    = Ok (steps', nilmap, err) w' tr.
Proof.
  revert steps w. induction actions as [|action actions IH]; intros steps w.
  - simpl. by eauto.
  - simpl. destruct (checkRepeatedAction steps action) as [steps1 [err1|]].
    { simpl. by eauto. }
    destruct (doAction_Ok e steps1 nameToTool action w)
      as ([steps2 err2] & w2 & tr2 & Hact).
    rewrite (bind_Ok _ _ _ _ _ _ Hact). destruct err2 as [err2|].
    + simpl. by eauto.
    + destruct (IH steps2 w2) as (steps' & err & w' & tr & ->).
      simpl. by eauto.
Qed.

(** The ways out of [doIteration]: it returns a map that is not nil only
    for a finish whose return values are not nil; it returns an error
    only with a nil map; it panics only in [getReturn]. *)
Lemma doIteration_cases e steps nameToTool inputs w :
  let r := doIteration texts e steps nameToTool inputs w in
  (exists steps' err w' tr, r = Ok (steps', nilmap, err) w' tr) \/
  (exists w1 actions finish m,
     Plan (ExAgent e) w steps inputs = (w1, (actions, Some finish, None)) /\
     schema.ReturnValues finish = mkmap m /\
     r = Ok (steps, mkmap (finishOutputs e m steps), None)
            (finishNotified e finish steps w1)
            (EvPlan steps inputs actions (Some finish) None
               :: notifyFinish e finish steps)) \/
  (exists w1 actions finish,
     Plan (ExAgent e) w steps inputs = (w1, (actions, Some finish, None)) /\
     schema.ReturnValues finish = nilmap /\
     ReturnIntermediateSteps e = true /\
     r = Panic (finishNotified e finish steps w1)
               (EvPlan steps inputs actions (Some finish) None
                  :: notifyFinish e finish steps)).
Proof.
  cbv zeta. rewrite doIteration_unfold.
  destruct (Plan (ExAgent e) w steps inputs) as [w1 [[actions finish] err]].
  unfold doIteration_planned.
  destruct (recoverable e err) as [[err' handler]|].
  { left. simpl. by eauto. }
  destruct err as [err|].
  { left. simpl. by eauto. }
  destruct finish as [finish|].
  - unfold getReturn, finishOutputs, bind, ret, go_store.
    destruct (schema.ReturnValues finish) as [|m] eqn:Hm,
             (ReturnIntermediateSteps e) eqn:Hris; simpl;
      rewrite ?app_nil_r.
    + right. right. exists w1, actions, finish. by rewrite Hm.
    + left. by eauto.
    + right. left. exists w1, actions, finish, m. by rewrite Hm.
    + right. left. exists w1, actions, finish, m. by rewrite Hm.
  - left. destruct actions as [|action actions]; [simpl; by eauto|].
    destruct (doIteration_actions_Ok e nameToTool (action :: actions) steps w1)
      as (steps' & err & w' & tr & ->).
    simpl. by eauto.
Qed.

(** ** How the loop can end *)

(** The loop is left at its end, or some iteration, reached by falling
    through the ones before it, returns or panics. *)
Lemma Call_for_cases e nameToTool inputs range steps w :
  let r := Call_for texts e nameToTool inputs range steps w in
  (exists steps' w' tr, r = Ok (inl steps') w' tr) \/
  (exists pre i post steps1 w1 tr0,
     range = pre ++ i :: post /\
     continued texts e nameToTool inputs pre steps w = Some (steps1, w1, tr0) /\
     ((exists steps' finish err w' tr1,
         doIteration texts e steps1 nameToTool inputs w1
           = Ok (steps', finish, err) w' tr1 /\
         go_notnil finish || is_some err = true /\
         r = Ok (inr (finish, err)) w' (tr0 ++ tr1)) \/
      (exists w' tr1,
         doIteration texts e steps1 nameToTool inputs w1 = Panic w' tr1 /\
         r = Panic w' (tr0 ++ tr1)))).
Proof.
  cbv zeta. revert steps w.
  induction range as [|i range IH]; intros steps w.
  - left. simpl. by eauto.
  - simpl. destruct (doIteration texts e steps nameToTool inputs w)
      as [[[steps1 finish] err] w1 tr1|w1 tr1] eqn:Hit.
    2:{ right. exists [], i, range, steps, w, [].
        split_and!; [done|done|]. right. exists w1, tr1.
        by rewrite (bind_Panic _ _ _ _ _ Hit). }
    rewrite (bind_Ok _ _ _ _ _ _ Hit). cbv beta iota.
    destruct (go_notnil finish || is_some err) eqn:Hstop.
    { right. exists [], i, range, steps, w, [].
      split_and!; [done|done|]. left.
      exists steps1, finish, err, w1, tr1. simpl. by rewrite app_nil_r. }
    destruct (IH (lastChance e i steps1) w1)
      as [(steps' & w' & tr & ->)
         |(pre & j & post & steps2 & w2 & tr0 & -> & Hcont & Hend)].
    { left. simpl. by eauto. }
    right. exists (i :: pre), j, post, steps2, w2, (tr1 ++ tr0).
    split_and!; [done|by simpl; rewrite Hit, Hstop, Hcont|].
    destruct Hend as [(steps' & fin & er & w' & tr2 & Hit2 & Hstop2 & ->)
                     |(w' & tr2 & Hit2 & ->)].
    + left. exists steps', fin, er, w', tr2. simpl. by rewrite app_assoc.
    + right. exists w', tr2. simpl. by rewrite app_assoc.
Qed.

(** The ways out of [Call]: the inputs are refused; the loop is left at
    its end; an iteration returns an error; an iteration returns a finish;
    [getReturn] panics on a finish whose return values are nil. *)
Lemma Call_outcomes e order w :
  let r := Call texts e order w in
  (exists err, inputsToString texts order = inr err /\
               r = Ok (nilmap, Some err) w []) \/
  (exists steps w1 tr,
     r = Ok (exhaustedOutputs e steps, Some ErrNotFinished)
            (notifiedWorld texts e steps w1)
            (tr ++ notifyNotFinished texts e steps)) \/
  (exists err w1 tr, r = Ok (nilmap, Some err) w1 tr) \/
  (exists tr0 steps inputs actions finish m w1,
     schema.ReturnValues finish = mkmap m /\
     r = Ok (mkmap (finishOutputs e m steps), None) w1
            (tr0 ++ EvPlan steps inputs actions (Some finish) None
                 :: notifyFinish e finish steps)) \/
  (exists tr0 steps inputs actions finish w1,
     schema.ReturnValues finish = nilmap /\
     ReturnIntermediateSteps e = true /\
     r = Panic w1 (tr0 ++ EvPlan steps inputs actions (Some finish) None
                       :: notifyFinish e finish steps)).
Proof.
  cbv zeta.
  destruct (inputsToString texts order) as [inputs|err] eqn:Hin.
  2:{ left. exists err. split; [done|]. unfold Call. by rewrite Hin. }
  right.
  destruct (Call_for_cases e (getNameToTool (GetTools (ExAgent e))) inputs
              (seqZ 0 (MaxIterations e)) [] w)
    as [(steps' & w' & tr & Hfor)
       |(pre & i & post & steps1 & w1 & tr0 & _ & _ & Hend)].
  { left. exists steps', w', tr. by apply (Call_exhausted texts e order inputs). }
  right.
  destruct (doIteration_cases e steps1
              (getNameToTool (GetTools (ExAgent e))) inputs w1)
    as [(steps' & err & w' & tr & Hit)
       |[(w2 & actions & finish & m & Hplan & Hm & Hit)
        |(w2 & actions & finish & Hplan & Hm & Hris & Hit)]];
    destruct Hend as [(steps2 & fin & er & w3 & tr1 & Hit2 & Hstop & Hfor)
                     |(w3 & tr1 & Hit2 & Hfor)];
    rewrite Hit in Hit2; try done.
  - injection Hit2 as <- <- <- <- <-. left.
    destruct err as [err|]; [|done].
    exists err, w', (tr0 ++ tr).
    by apply (Call_returned texts e order inputs).
  - injection Hit2 as <- <- <- <- <-. right. left.
    exists tr0, steps1, inputs, actions, finish, m,
      (finishNotified e finish steps1 w2).
    split; [done|]. by apply (Call_returned texts e order inputs).
  - injection Hit2 as <- <-. right. right.
    exists tr0, steps1, inputs, actions, finish,
      (finishNotified e finish steps1 w2).
    split_and!; [done|done|].
    unfold Call. rewrite Hin. cbv zeta. by rewrite (bind_Panic _ _ _ _ _ Hfor).
Qed.

(** X4.  A [Call] that returns no error returns a map that is not nil: the
    return values of a finish the planner gave in the last [Plan] call of
    the trace (with the ledger among them if [ReturnIntermediateSteps] is
    set); after that call only the handler is notified. *)
Theorem Call_success_is_a_finish e order w outputs w' tr :
  Call texts e order w = Ok (outputs, None) w' tr ->
  exists tr0 steps inputs actions finish m,
    schema.ReturnValues finish = mkmap m /\
    outputs = mkmap (finishOutputs e m steps) /\
    tr = tr0 ++ EvPlan steps inputs actions (Some finish) None
             :: notifyFinish e finish steps.
Proof.
  intros Hcall.
  destruct (Call_outcomes e order w)
    as [(err & _ & H)|[(steps & w1 & tr1 & H)|[(err & w1 & tr1 & H)
       |[(tr0 & steps & inputs & actions & finish & m & w1 & Hm & H)
        |(tr0 & steps & inputs & actions & finish & w1 & _ & _ & H)]]]];
    rewrite H in Hcall; try done.
  injection Hcall as <- <- <-.
  by exists tr0, steps, inputs, actions, finish, m.
Qed.

(** X5.  A [Call] that returns an error returns nil outputs, unless the error
    is the [ErrNotFinished] of a loop left at its end: the outputs are
    then a map that holds the ledger under ["intermediateSteps"] if
    [ReturnIntermediateSteps] is set and nothing otherwise. *)
Theorem Call_error_outputs e order w outputs err w' tr :
  Call texts e order w = Ok (outputs, Some err) w' tr ->
  outputs = nilmap \/
  (err = ErrNotFinished /\
   exists steps, outputs = exhaustedOutputs e steps /\
     exists tr0, tr = tr0 ++ notifyNotFinished texts e steps).
Proof.
  intros Hcall.
  destruct (Call_outcomes e order w)
    as [(err1 & _ & H)|[(steps & w1 & tr1 & H)|[(err1 & w1 & tr1 & H)
       |[(tr0 & steps & inputs & actions & finish & m & w1 & Hm & H)
        |(tr0 & steps & inputs & actions & finish & w1 & _ & _ & H)]]]];
    rewrite H in Hcall; try done.
  - injection Hcall as <- <- <- <-. by left.
  - injection Hcall as <- <- <- <-. right. split; [done|].
    exists steps. split; [done|]. by exists tr1.
  - injection Hcall as <- <- <- <-. by left.
Qed.


(** ** Plans that end the [Call] with an error *)

(** X1.  A plan with no action and no finish (and no error) ends the [Call]
    with [ErrAgentNoReturn] and nil outputs; nothing follows the [Plan]
    call. *)
Theorem Call_agent_no_return e order w0 inputs i steps wp tr0 w1 :
  reached texts e order w0 inputs i steps wp tr0 ->
  Plan (ExAgent e) wp steps inputs = (w1, ([], None, None)) ->
  Call texts e order w0 =
    Ok (nilmap, Some ErrAgentNoReturn) w1
       (tr0 ++ [EvPlan steps inputs [] None None]).
Proof.
  intros Hreach Hplan.
  rewrite (Call_reached _ _ _ _ _ _ _ _ _ Hreach).
  assert (doIteration texts e steps (getNameToTool (GetTools (ExAgent e)))
            inputs wp
          = Ok (steps, nilmap, Some ErrAgentNoReturn) w1
               [EvPlan steps inputs [] None None]) as Hit.
  { by rewrite doIteration_unfold, Hplan. }
  by rewrite (Call_rest_step _ _ _ _ _ _ _ _ _ _ _ _ _ Hit).
Qed.

(** X2.  An error of the planner that is not [ErrUnableToParseOutput] ends the
    [Call] with that error and nil outputs, whether or not an error
    handler is configured and whatever actions or finish came with the
    error: no action is dispatched and the handler is not told of the
    finish. *)
Theorem Call_planner_error e order w0 inputs i steps wp tr0 w1
    actions finish err :
  reached texts e order w0 inputs i steps wp tr0 ->
  Plan (ExAgent e) wp steps inputs = (w1, (actions, finish, Some err)) ->
  errors_Is err ErrUnableToParseOutput = false ->
  Call texts e order w0 =
    Ok (nilmap, Some err) w1
       (tr0 ++ [EvPlan steps inputs actions finish (Some err)]).
Proof.
  intros Hreach Hplan His.
  rewrite (Call_reached _ _ _ _ _ _ _ _ _ Hreach).
  assert (doIteration texts e steps (getNameToTool (GetTools (ExAgent e)))
            inputs wp
          = Ok (steps, nilmap, Some err) w1
               [EvPlan steps inputs actions finish (Some err)]) as Hit.
  { rewrite doIteration_unfold, Hplan.
    unfold doIteration_planned, recoverable. rewrite His.
    by destruct (ErrorHandler e). }
  by rewrite (Call_rest_step _ _ _ _ _ _ _ _ _ _ _ _ _ Hit).
Qed.

(** ** The outputs of a finish *)

(** X3.  The outputs of a [Call] that ends on a finish, key by key: under
    ["intermediateSteps"] the ledger if [ReturnIntermediateSteps] is set
    (whatever the planner had put there), and the planner's value
    otherwise; under every other key the planner's value. *)
Theorem Call_finish_outputs e order w0 inputs i steps wp tr0 w1
    actions finish m :
  reached texts e order w0 inputs i steps wp tr0 ->
  Plan (ExAgent e) wp steps inputs = (w1, (actions, Some finish, None)) ->
  schema.ReturnValues finish = mkmap m ->
  exists outputs w' tr,
    Call texts e order w0 = Ok (outputs, None) w' tr /\
    go_lookup outputs "intermediateSteps" =
      (if ReturnIntermediateSteps e then Some (schema.AnySteps steps)
       else m !! "intermediateSteps") /\
    (forall key, key <> "intermediateSteps" ->
                 go_lookup outputs key = m !! key) /\
    count is_tool_call tr = count is_tool_call tr0 /\
    count is_on_action tr = count is_on_action tr0.
Proof.
  intros Hreach Hplan Hm.
  eexists _, _, _.
  split; [by apply (Call_finish_returns texts e order w0 inputs i steps wp tr0
                      w1 actions finish m)|].
  assert (forall p, p (EvPlan steps inputs actions (Some finish) None) = false ->
            (forall f s, p (EvHandleAgentFinish f s) = false) ->
            count p (tr0 ++ EvPlan steps inputs actions (Some finish) None
                          :: notifyFinish e finish steps) = count p tr0)
    as Hcount.
  { intros p Hp Hf. rewrite count_app, count_cons, Hp. unfold notifyFinish.
    destruct (CallbacksHandler e);
      rewrite ?count_cons, ?Hf, ?count_nil; lia. }
  unfold finishOutputs, _intermediateStepsOutputKey.
  split_and!.
  - simpl. destruct (ReturnIntermediateSteps e); [|done].
    by rewrite lookup_insert_eq.
  - intros key Hkey. simpl. destruct (ReturnIntermediateSteps e); [|done].
    by rewrite lookup_insert_ne.
  - by apply Hcount.
  - by apply Hcount.
Qed.

(** ** Dispatches and planned actions *)

Lemma planned_actions_app tr1 tr2 :
  planned_actions (tr1 ++ tr2)
  = (planned_actions tr1 + planned_actions tr2)%nat.
Proof. apply sum_list_with_app. Qed.

Lemma count_le_length p tr : (count p tr <= length tr)%nat.
Proof.
  induction tr as [|ev tr IH]; [done|].
  rewrite count_cons. simpl. destruct (p ev); lia.
Qed.

(** One dispatch tells the handler at most once and calls at most one
    tool. *)
Lemma doAction_counts e steps nameToTool action w :
  (count is_tool_call (trace_of (doAction e steps nameToTool action w)) <= 1
   /\ count is_on_action (trace_of (doAction e steps nameToTool action w)) <= 1)%nat.
Proof.
  rewrite doAction_unfold, trace_of_after, !count_app.
  assert (count is_tool_call (notifyAction e action) = 0
          /\ count is_on_action (notifyAction e action) <= 1)%nat as [-> Hn].
  { unfold notifyAction.
    destruct (CallbacksHandler e); rewrite ?count_cons, ?count_nil; simpl; lia. }
  destruct (go_lookup nameToTool _) as [tool|]; simpl.
  - destruct (tools.Call tool _ steps _) as [w' [observation err]]. simpl.
    rewrite !count_cons, !count_nil. simpl. lia.
  - rewrite !count_nil. lia.
Qed.

Lemma doIteration_actions_counts e nameToTool actions steps w :
  (count is_tool_call
     (trace_of (doIteration_actions e nameToTool actions steps w))
   <= length actions /\
   count is_on_action
     (trace_of (doIteration_actions e nameToTool actions steps w))
   <= length actions)%nat.
Proof.
  revert steps w. induction actions as [|action actions IH]; intros steps w.
  - simpl. rewrite !count_nil. lia.
  - simpl. destruct (checkRepeatedAction steps action) as [steps1 [err|]].
    { simpl. rewrite !count_nil. lia. }
    rewrite trace_of_bind.
    pose proof (doAction_counts e steps1 nameToTool action w) as [Ht Ha].
    destruct (doAction e steps1 nameToTool action w)
      as [[steps2 [err|]] w2 tr2|w2 tr2]; simpl in *;
      rewrite ?count_app, ?count_nil; try lia.
    destruct (IH steps2 w2) as [IHt IHa]. lia.
Qed.

Lemma doIteration_counts e steps nameToTool inputs w :
  let tr := trace_of (doIteration texts e steps nameToTool inputs w) in
  (count is_tool_call tr <= planned_actions tr /\
   count is_on_action tr <= planned_actions tr)%nat.
Proof.
  cbv zeta. rewrite doIteration_unfold.
  destruct (Plan (ExAgent e) w steps inputs) as [w' [[actions finish] err]].
  rewrite trace_of_after, !count_app, planned_actions_app.
  change (planned_actions [EvPlan steps inputs actions finish err])
    with (length actions + 0)%nat.
  rewrite !count_cons, !count_nil. simpl.
  unfold doIteration_planned.
  destruct (recoverable e err) as [[err' handler]|];
    [simpl; rewrite !count_nil; lia|].
  destruct err as [err|]; [simpl; rewrite !count_nil; lia|].
  destruct finish as [finish|].
  - rewrite trace_of_after, trace_of_bind.
    pose proof (getReturn_trace e finish steps
                  (finishNotified e finish steps w')) as Hret.
    assert (count is_tool_call (notifyFinish e finish steps) = 0
            /\ count is_on_action (notifyFinish e finish steps) = 0)%nat
      as [Hf1 Hf2].
    { unfold notifyFinish. by destruct (CallbacksHandler e). }
    destruct (getReturn e finish steps _); simpl in Hret; subst; simpl;
      rewrite !count_app, Hf1, Hf2, !count_nil; lia.
  - destruct actions as [|action actions];
      [simpl; rewrite !count_nil; lia|].
    destruct (doIteration_actions_counts e nameToTool (action :: actions)
                steps w') as [Ht Ha]. lia.
Qed.

Lemma Call_for_counts e nameToTool inputs range steps w :
  let tr := trace_of (Call_for texts e nameToTool inputs range steps w) in
  (count is_tool_call tr <= planned_actions tr /\
   count is_on_action tr <= planned_actions tr)%nat.
Proof.
  cbv zeta. revert steps w. induction range as [|i range IH]; intros steps w.
  - simpl. rewrite !count_nil. lia.
  - simpl. rewrite trace_of_bind.
    pose proof (doIteration_counts e steps nameToTool inputs w) as Hit.
    cbv zeta in Hit.
    destruct (doIteration texts e steps nameToTool inputs w)
      as [[[steps1 finish] err] w1 tr1|w1 tr1]; simpl in Hit; [|done].
    rewrite !count_app, planned_actions_app.
    destruct (go_notnil finish || is_some err).
    + simpl. rewrite !count_nil. change (planned_actions []) with 0%nat. lia.
    + destruct (IH (lastChance e i steps1) w1) as [IHt IHa]. lia.
Qed.

(** X7.  In one [Call] there are no more tool calls, and no more
    notifications of an action, than actions returned by the planner:
    an action is dispatched at most once. *)
Theorem Call_dispatches_bounded e order w :
  let tr := trace_of (Call texts e order w) in
  (count is_tool_call tr <= planned_actions tr /\
   count is_on_action tr <= planned_actions tr)%nat.
Proof.
  cbv zeta.
  destruct (inputsToString texts order) as [inputs|err] eqn:Hin.
  2:{ unfold Call. rewrite Hin. simpl. rewrite !count_nil. lia. }
  pose proof (Call_for_counts e (getNameToTool (GetTools (ExAgent e))) inputs
                (seqZ 0 (MaxIterations e)) [] w) as Hfor. cbv zeta in Hfor.
  destruct (Call_for texts e (getNameToTool (GetTools (ExAgent e))) inputs
              (seqZ 0 (MaxIterations e)) [] w)
    as [[steps|[finish err]] w1 tr1|w1 tr1] eqn:Hcall; simpl in Hfor.
  - rewrite (Call_exhausted texts e order inputs steps w w1 tr1 Hin Hcall).
    simpl. rewrite !count_app, planned_actions_app.
    assert (count is_tool_call (notifyNotFinished texts e steps) = 0
            /\ count is_on_action (notifyNotFinished texts e steps) = 0)%nat
      as [-> ->].
    { unfold notifyNotFinished. by destruct (CallbacksHandler e). }
    lia.
  - by rewrite (Call_returned texts e order inputs finish err w w1 tr1 Hin Hcall).
  - unfold Call. rewrite Hin. cbv zeta.
    by rewrite (bind_Panic _ _ _ _ _ Hcall).
Qed.

(** ** The inputs the planner is given *)

Lemma inputsToString_range_lookup order (acc r : gmap string string) :
  NoDup order.*1 ->
  inputsToString_range texts order acc = inl r ->
  forall key,
    r !! key = match (list_to_map order : gmap string any) !! key with
               | Some value => assert_string value
               | None => acc !! key
               end.
Proof.
  revert acc. induction order as [|[k v] order IH]; intros acc Hnd.
  - simpl. intros [= <-] key. by rewrite lookup_empty.
  - simpl in *. apply NoDup_cons in Hnd as [Hk Hnd].
    destruct (assert_string v) as [s|] eqn:Hv; [|done].
    intros Hr key. rewrite (IH _ Hnd Hr key).
    destruct (decide (k = key)) as [->|Hne].
    + rewrite lookup_insert_eq.
      rewrite (not_elem_of_list_to_map_1 (M:=gmap string) order key Hk).
      by rewrite lookup_insert_eq.
    + rewrite (lookup_insert_ne (list_to_map order)) by done.
      destruct (list_to_map order !! key); [done|].
      by rewrite lookup_insert_ne.
Qed.

(** X9.  For inputs that are all strings, [inputsToString] gives the map of
    those strings, whatever the order in which the entries are visited. *)
Theorem inputsToString_all_strings (inputValues : gmap string any) order :
  ranges inputValues order ->
  (forall key value, inputValues !! key = Some value ->
                     is_Some (assert_string value)) ->
  inputsToString texts order = inl (omap assert_string inputValues).
Proof.
  intros Hr Hall.
  destruct (inputsToString_strings texts inputValues order Hr Hall)
    as [inputs Hin].
  rewrite Hin. f_equal. apply map_eq. intros key.
  assert (NoDup order.*1) as Hnd.
  { unfold ranges in Hr. rewrite Hr. apply NoDup_fst_map_to_list. }
  unfold inputsToString in Hin.
  rewrite (inputsToString_range_lookup order ∅ inputs Hnd Hin key).
  assert ((list_to_map order : gmap string any) = inputValues) as ->.
  { rewrite <- (list_to_map_to_list inputValues).
    apply list_to_map_proper; [done|]. apply Hr. }
  rewrite lookup_omap. by destruct (inputValues !! key).
Qed.

(** X10.  Round trip: a map of strings, each wrapped as an [any], comes back
    as it was. *)
Theorem inputsToString_round_trip (inputs : gmap string string) order :
  ranges (schema.AnyString <$> inputs) order ->
  inputsToString texts order = inl inputs.
Proof.
  intros Hr. rewrite (inputsToString_all_strings _ order Hr).
  - f_equal. apply map_eq. intros key.
    rewrite lookup_omap, lookup_fmap. by destruct (inputs !! key).
  - intros key value. rewrite lookup_fmap.
    destruct (inputs !! key); [|done]. intros [= <-]. by eexists.
Qed.

Lemma doIteration_planned_with e steps nameToTool inputs w :
  Forall (planned_with inputs)
         (trace_of (doIteration texts e steps nameToTool inputs w)).
Proof.
  rewrite doIteration_unfold.
  destruct (Plan (ExAgent e) w steps inputs) as [w' [[actions finish] err]].
  rewrite trace_of_after. apply Forall_app. split; [by repeat constructor|].
  unfold doIteration_planned.
  destruct (recoverable e err) as [[err' handler]|]; [by constructor|].
  destruct err as [err|]; [by constructor|].
  destruct finish as [finish|].
  - rewrite trace_of_after, trace_of_bind.
    pose proof (getReturn_trace e finish steps
                  (finishNotified e finish steps w')) as Hret.
    apply Forall_app. split.
    + unfold notifyFinish. destruct (CallbacksHandler e); by repeat constructor.
    + destruct (getReturn e finish steps _); simpl in Hret; subst;
        by constructor.
  - destruct actions as [|action actions]; [by constructor|].
    eapply Forall_impl;
      [apply (doIteration_actions_dispatch e nameToTool (action :: actions))|].
    by intros [].
Qed.

Lemma Call_for_planned_with e nameToTool inputs range steps w :
  Forall (planned_with inputs)
         (trace_of (Call_for texts e nameToTool inputs range steps w)).
Proof.
  revert steps w. induction range as [|i range IH]; intros steps w.
  - by constructor.
  - simpl. rewrite trace_of_bind.
    pose proof (doIteration_planned_with e steps nameToTool inputs w) as Hit.
    destruct (doIteration texts e steps nameToTool inputs w)
      as [[[steps1 finish] err] w1 tr1|w1 tr1]; simpl in Hit; [|done].
    apply Forall_app. split; [done|].
    destruct (go_notnil finish || is_some err); [by constructor|apply IH].
Qed.

(** X8.  Every [Plan] call of a [Call] is given the same inputs: the map of
    the string values of the inputs of the [Call]. *)
Theorem Call_plans_with_inputs e (inputValues : gmap string any) order w :
  ranges inputValues order ->
  Forall (planned_with (omap assert_string inputValues))
         (trace_of (Call texts e order w)).
Proof.
  intros Hr.
  destruct (inputsToString texts order) as [inputs|err] eqn:Hin.
  2:{ unfold Call. rewrite Hin. by constructor. }
  assert (inputs = omap assert_string inputValues) as <-.
  { assert (NoDup order.*1) as Hnd.
    { unfold ranges in Hr. rewrite Hr. apply NoDup_fst_map_to_list. }
    apply map_eq. intros key. unfold inputsToString in Hin.
    rewrite (inputsToString_range_lookup order ∅ inputs Hnd Hin key).
    assert ((list_to_map order : gmap string any) = inputValues) as ->.
    { rewrite <- (list_to_map_to_list inputValues).
      apply list_to_map_proper; [done|]. apply Hr. }
    rewrite lookup_omap. by destruct (inputValues !! key). }
  pose proof (Call_for_planned_with e (getNameToTool (GetTools (ExAgent e)))
                inputs (seqZ 0 (MaxIterations e)) [] w) as Hfor.
  destruct (Call_for texts e (getNameToTool (GetTools (ExAgent e))) inputs
              (seqZ 0 (MaxIterations e)) [] w)
    as [[steps|[finish err]] w1 tr1|w1 tr1] eqn:Hcall; simpl in Hfor.
  - rewrite (Call_exhausted texts e order inputs steps w w1 tr1 Hin Hcall).
    simpl. apply Forall_app. split; [done|].
    unfold notifyNotFinished. destruct (CallbacksHandler e);
      by repeat constructor.
  - by rewrite (Call_returned texts e order inputs finish err w w1 tr1 Hin Hcall).
  - unfold Call. rewrite Hin. cbv zeta.
    by rewrite (bind_Panic _ _ _ _ _ Hcall).
Qed.

(** ** The last-chance hint *)

Lemma continued_app_inv e nameToTool inputs pre post steps0 w0 steps w tr :
  continued texts e nameToTool inputs (pre ++ post) steps0 w0
    = Some (steps, w, tr) ->
  exists steps1 w1 tr1 tr2,
    continued texts e nameToTool inputs pre steps0 w0 = Some (steps1, w1, tr1) /\
    continued texts e nameToTool inputs post steps1 w1 = Some (steps, w, tr2) /\
    tr = tr1 ++ tr2.
Proof.
  revert steps0 w0 tr. induction pre as [|i pre IH]; intros steps0 w0 tr.
  - simpl. intros H. by exists steps0, w0, [], tr.
  - simpl. destruct (doIteration texts e steps0 nameToTool inputs w0)
      as [[[steps1 finish] err] w1 tr1|]; [|done].
    destruct (go_notnil finish || is_some err); [done|].
    destruct (continued texts e nameToTool inputs (pre ++ post) _ w1)
      as [[[steps2 w2] tr2]|] eqn:Hrest; [|done].
    intros [= <- <- <-].
    destruct (IH _ _ _ Hrest) as (steps3 & w3 & tr3 & tr4 & -> & Hpost & ->).
    exists steps3, w3, (tr1 ++ tr3), tr4. by rewrite app_assoc.
Qed.

(** X11.  The hint is appended after the iteration before the last one, and
    after no other, and only when there are more than two iterations; so
    the last [Plan] call of a [Call] with more than two iterations is
    given a ledger that ends with the hint. *)
Theorem last_round_sees_the_hint e order w0 inputs steps w tr :
  reached texts e order w0 inputs (MaxIterations e - 1) steps w tr ->
  2 < MaxIterations e ->
  (exists steps', steps = steps' ++ [lastChanceStep]) /\
  (forall i steps', i <> MaxIterations e - 2 -> lastChance e i steps' = steps').
Proof.
  intros (Hin & Hi & Hcont) Hmax. split.
  - replace (MaxIterations e - 1) with ((MaxIterations e - 2) + 1) in Hcont
      by lia.
    rewrite seqZ_app in Hcont by lia.
    apply continued_app_inv in Hcont
      as (steps1 & w1 & tr1 & tr2 & _ & Hlast & _).
    rewrite Z.add_0_l in Hlast.
    rewrite (seqZ_cons _ 1) in Hlast by lia.
    change (seqZ (Z.succ (MaxIterations e - 2)) (Z.pred 1)) with (@nil Z)
      in Hlast.
    simpl in Hlast.
    destruct (doIteration texts e steps1 _ inputs w1)
      as [[[steps2 finish] err] w2 tr3|]; [|done].
    destruct (go_notnil finish || is_some err); [done|].
    injection Hlast as <- <- <-. exists steps2. unfold lastChance.
    replace (2 <? MaxIterations e) with true by (symmetry; apply Z.ltb_lt; lia).
    by rewrite Z.eqb_refl.
  - intros i steps' Hne. unfold lastChance.
    replace (i =? MaxIterations e - 2) with false
      by (symmetry; apply Z.eqb_neq; lia).
    by rewrite andb_false_r.
Qed.

(** With at most two iterations no hint is ever appended. *)
Lemma lastChance_short_budget e i steps :
  MaxIterations e <= 2 -> lastChance e i steps = steps.
Proof.
  intros Hmax. unfold lastChance.
  by replace (2 <? MaxIterations e) with false
    by (symmetry; apply Z.ltb_ge; lia).
Qed.

(** ** The registry *)




(** ** An action is dispatched once *)

(** A dispatch that returns no error appends one step, and that step
    carries the action. *)
Lemma doAction_appends e steps nameToTool action w steps' w' tr :
  doAction e steps nameToTool action w = Ok (steps', None) w' tr ->
  exists observation, steps' = steps ++ [schema.mkStep action observation].
Proof.
  rewrite doAction_unfold. destruct (go_lookup nameToTool _) as [tool|].
  - destruct (tools.Call tool _ steps _) as [w2 [observation [err|]]];
      simpl; intros [= <- <- <-]. by eexists.
  - simpl. intros [= <- <- <-]. case_bool_decide; by eexists.
Qed.

(** X14.  Once an action has been dispatched without error, any action with
    the same tool and tool input (whatever its log) is a repetition for
    every ledger that extends the one the dispatch returned: the check
    stops it. *)
Theorem dispatched_action_is_not_dispatched_again
    e steps nameToTool action w steps' w' tr later action' :
  doAction e steps nameToTool action w = Ok (steps', None) w' tr ->
  steps' `prefix_of` later ->
  schema.Tool action' = schema.Tool action ->
  schema.ToolInput action' = schema.ToolInput action ->
  checkRepeatedAction later action' =
    (later ++ [repeatedStep action'],
     Some (Errorf ("repeated action: " +:+ schema.Tool action'))) /\
  forall actions w1,
    doIteration_actions e nameToTool (action' :: actions) later w1
    = Ok (later ++ [repeatedStep action'], nilmap, None) w1 [].
Proof.
  intros Hact [rest ->] Htool Hinput.
  apply doAction_appends in Hact as [observation ->].
  assert (repeated ((steps ++ [schema.mkStep action observation]) ++ rest)
                   action') as Hrep.
  { exists (schema.mkStep action observation). split_and!; [|done|done].
    apply elem_of_app. left. apply elem_of_app. right. apply list_elem_of_here. }
  pose proof (checkRepeatedAction_repeated _ _ Hrep) as Hcheck.
  split; [done|]. intros actions w1. simpl. by rewrite Hcheck.
Qed.

(** ** Nothing happens after a tool has failed *)

Lemma failed_at_end_after tr1 tr err :
  tools_ok tr1 -> failed_at_end tr err -> failed_at_end (tr1 ++ tr) err.
Proof.
  intros Hok (tr0 & ev & -> & Hok0 & Hev & Herr).
  exists (tr1 ++ tr0), ev. rewrite app_assoc.
  split_and!; [done|by apply Forall_app|done|done].
Qed.

Lemma doAction_failure e steps nameToTool action w steps' err w' tr :
  doAction e steps nameToTool action w = Ok (steps', err) w' tr ->
  match err with
  | None => tools_ok tr
  | Some err => failed_at_end tr err
  end.
Proof.
  rewrite doAction_unfold.
  assert (tools_ok (notifyAction e action)) as Hn.
  { unfold notifyAction. destruct (CallbacksHandler e); by repeat constructor. }
  destruct (go_lookup nameToTool _) as [tool|].
  - destruct (tools.Call tool _ steps _) as [w2 [observation [err2|]]];
      simpl; intros [= <- <- <- <-].
    + eexists _, _. by split_and!.
    + apply Forall_app. split; [done|]. by repeat constructor.
  - simpl. intros [= <- <- <- <-]. by rewrite app_nil_r.
Qed.

Lemma doIteration_actions_failure e nameToTool actions steps w
    steps' finish err w' tr :
  doIteration_actions e nameToTool actions steps w
    = Ok (steps', finish, err) w' tr ->
  finish = nilmap /\
  match err with
  | None => tools_ok tr
  | Some err => failed_at_end tr err
  end.
Proof.
  revert steps w tr. induction actions as [|action actions IH];
    intros steps w tr.
  - simpl. intros [= <- <- <- <- <-]. split; [done|constructor].
  - simpl. destruct (checkRepeatedAction steps action) as [steps1 [err1|]].
    { simpl. intros [= <- <- <- <- <-]. split; [done|constructor]. }
    intros Hb. apply bind_Ok_inv in Hb
      as ([steps2 err2] & w2 & tr2 & tr3 & Hact & Hrest & ->).
    apply doAction_failure in Hact. destruct err2 as [err2|].
    + simpl in Hrest. injection Hrest as <- <- <- <- <-.
      by rewrite app_nil_r.
    + apply IH in Hrest as [-> Hrest]. split; [done|].
      destruct err as [err|].
      * by apply failed_at_end_after.
      * by apply Forall_app.
Qed.

Lemma doIteration_failure e steps nameToTool inputs w :
  let r := doIteration texts e steps nameToTool inputs w in
  tools_ok (trace_of r) \/
  exists steps' err w' tr,
    r = Ok (steps', nilmap, Some err) w' tr /\ failed_at_end tr err.
Proof.
  cbv zeta. rewrite doIteration_unfold.
  destruct (Plan (ExAgent e) w steps inputs) as [w1 [[actions finish] err]].
  assert (tools_ok [EvPlan steps inputs actions finish err]) as Hplan
    by (by repeat constructor).
  unfold doIteration_planned.
  destruct (recoverable e err) as [[err' handler]|]; [by left|].
  destruct err as [err|]; [by left|].
  destruct finish as [finish|].
  - left. rewrite !trace_of_after, trace_of_bind.
    pose proof (getReturn_trace e finish steps
                  (finishNotified e finish steps w1)) as Hret.
    apply Forall_app. split; [done|]. apply Forall_app. split.
    + unfold notifyFinish. destruct (CallbacksHandler e); by repeat constructor.
    + destruct (getReturn e finish steps _); simpl in Hret; subst;
        by constructor.
  - destruct actions as [|action actions]; [by left|].
    destruct (doIteration_actions_Ok e nameToTool (action :: actions) steps w1)
      as (steps' & err & w' & tr & Hrun).
    rewrite Hrun. apply doIteration_actions_failure in Hrun as [_ Hrun].
    destruct err as [err|].
    + right. exists steps', err, w', ([EvPlan steps inputs (action :: actions)
                                          None None] ++ tr).
      split; [done|]. by apply failed_at_end_after.
    + left. simpl. by constructor.
Qed.

Lemma Call_for_failure e nameToTool inputs range steps w :
  let r := Call_for texts e nameToTool inputs range steps w in
  tools_ok (trace_of r) \/
  exists err w' tr,
    r = Ok (inr (nilmap, Some err)) w' tr /\ failed_at_end tr err.
Proof.
  cbv zeta. revert steps w. induction range as [|i range IH]; intros steps w.
  - left. constructor.
  - simpl.
    destruct (doIteration_failure e steps nameToTool inputs w)
      as [Hok|(steps' & err & w' & tr & Hit & Hfail)].
    2:{ right. exists err, w', tr. rewrite (bind_Ok _ _ _ _ _ _ Hit).
        simpl. by rewrite app_nil_r. }
    destruct (doIteration texts e steps nameToTool inputs w)
      as [[[steps1 finish] err] w1 tr1|w1 tr1] eqn:Hit; simpl in Hok.
    2:{ left. by rewrite (bind_Panic _ _ _ _ _ Hit). }
    rewrite (bind_Ok _ _ _ _ _ _ Hit). cbv beta iota.
    destruct (go_notnil finish || is_some err).
    { left. simpl. by rewrite app_nil_r. }
    destruct (IH (lastChance e i steps1) w1)
      as [Hrest|(err' & w' & tr & -> & Hfail)].
    + left. rewrite trace_of_after. by apply Forall_app.
    + right. exists err', w', (tr1 ++ tr). split; [done|].
      by apply failed_at_end_after.
Qed.

Lemma Call_failure e order w :
  let r := Call texts e order w in
  tools_ok (trace_of r) \/
  exists err w' tr,
    r = Ok (nilmap, Some err) w' tr /\ failed_at_end tr err.
Proof.
  cbv zeta.
  destruct (inputsToString texts order) as [inputs|err] eqn:Hin.
  2:{ left. unfold Call. rewrite Hin. constructor. }
  destruct (Call_for_failure e (getNameToTool (GetTools (ExAgent e))) inputs
              (seqZ 0 (MaxIterations e)) [] w)
    as [Hok|(err & w' & tr & Hfor & Hfail)].
  2:{ right. exists err, w', tr. split; [|done].
      by apply (Call_returned texts e order inputs). }
  left.
  destruct (Call_for texts e (getNameToTool (GetTools (ExAgent e))) inputs
              (seqZ 0 (MaxIterations e)) [] w)
    as [[steps|[finish err]] w1 tr1|w1 tr1] eqn:Hcall; simpl in Hok.
  - rewrite (Call_exhausted texts e order inputs steps w w1 tr1 Hin Hcall).
    simpl. apply Forall_app. split; [done|].
    unfold notifyNotFinished. destruct (CallbacksHandler e);
      by repeat constructor.
  - by rewrite (Call_returned texts e order inputs finish err w w1 tr1 Hin Hcall).
  - unfold Call. rewrite Hin. cbv zeta.
    by rewrite (bind_Panic _ _ _ _ _ Hcall).
Qed.

(** X15.  A tool call that fails is the last event of the [Call]: no tool is
    called after it, the planner is not asked again, the handler is told
    nothing; and the [Call] returns nil outputs and the error of that
    tool call.  So at most one tool call of a [Call] fails. *)
Theorem Call_stops_at_failed_tool e order w tr0 ev tr1 :
  trace_of (Call texts e order w) = tr0 ++ ev :: tr1 ->
  tool_failed ev = true ->
  tr1 = [] /\ tools_ok tr0 /\
  exists err w',
    tool_error ev = Some err /\
    Call texts e order w = Ok (nilmap, Some err) w' (tr0 ++ [ev]).
Proof.
  intros Htr Hev.
  destruct (Call_failure e order w)
    as [Hok|(err & w' & tr & Hcall & tr0' & ev' & -> & Hok & Hev' & Herr)].
  { rewrite Htr in Hok. apply Forall_app in Hok as [_ Hok].
    apply Forall_cons in Hok as [Hok _]. congruence. }
  rewrite Hcall in Htr. simpl in Htr.
  destruct tr1 as [|ev1 tr1 _] using rev_ind.
  - apply app_inj_tail in Htr as [-> ->].
    split_and!; [done|done|]. by exists err, w'.
  - rewrite app_comm_cons, app_assoc in Htr.
    apply app_inj_tail in Htr as [-> _].
    apply Forall_app in Hok as [_ Hok].
    apply Forall_cons in Hok as [Hok _]. congruence.
Qed.

(** ** Actions with an empty tool name and an empty input *)

(** X16.  The steps that the executor appends on its own account (the recovery
    from an unparsable plan, the last-chance hint) carry the zero action.
    Once the ledger holds such a step, an action whose tool name and tool
    input are both empty is taken for a repetition and is not dispatched.
    In particular, in the last round of a [Call] with more than two
    iterations a plan that starts with such an action dispatches nothing,
    and the [Call] ends with [ErrNotFinished]. *)
Theorem empty_action_repeats_the_hint
    e order w0 inputs steps w tr w1 action actions :
  reached texts e order w0 inputs (MaxIterations e - 1) steps w tr ->
  2 < MaxIterations e ->
  Plan (ExAgent e) w steps inputs = (w1, (action :: actions, None, None)) ->
  schema.Tool action = "" ->
  schema.ToolInput action = "" ->
  (forall ledger observation,
     schema.mkStep schema.zeroAction observation ∈ ledger ->
     repeated ledger action) /\
  Call texts e order w0 =
    Ok (exhaustedOutputs e (steps ++ [repeatedStep action]),
        Some ErrNotFinished)
       (notifiedWorld texts e (steps ++ [repeatedStep action]) w1)
       (tr ++ [EvPlan steps inputs (action :: actions) None None]
           ++ notifyNotFinished texts e (steps ++ [repeatedStep action])).
Proof.
  intros Hreach Hmax Hplan Htool Hinput.
  assert (forall ledger observation,
            schema.mkStep schema.zeroAction observation ∈ ledger ->
            repeated ledger action) as Hzero.
  { intros ledger observation Hin.
    exists (schema.mkStep schema.zeroAction observation).
    by rewrite Htool, Hinput. }
  split; [done|].
  destruct (last_round_sees_the_hint e order w0 inputs steps w tr Hreach Hmax)
    as [[steps' ->] Hother].
  assert (repeated (steps' ++ [lastChanceStep]) action) as Hrep.
  { apply (Hzero _ (schema.Observation lastChanceStep)).
    apply elem_of_app. right. apply list_elem_of_here. }
  assert (doIteration texts e (steps' ++ [lastChanceStep])
            (getNameToTool (GetTools (ExAgent e))) inputs w
          = Ok ((steps' ++ [lastChanceStep]) ++ [repeatedStep action],
                nilmap, None) w1
               [EvPlan (steps' ++ [lastChanceStep]) inputs
                       (action :: actions) None None]) as Hit.
  { rewrite (doIteration_actions_planned _ _ _ _ _ _ _ _ Hplan) by done.
    simpl. by rewrite (checkRepeatedAction_repeated _ _ Hrep). }
  rewrite (Call_reached _ _ _ _ _ _ _ _ _ Hreach).
  rewrite (Call_rest_step _ _ _ _ _ _ _ _ _ _ _ _ _ Hit). simpl.
  rewrite remaining_nil by lia. rewrite Call_rest_nil. simpl.
  rewrite (Hother (MaxIterations e - 1)) by lia. done.
Qed.

End MoreProperties.

(** * The further properties at work *)

Lemma mute_reached : reached texts0 exMute orderQ tt inputsQ 0 [] tt [].
Proof.
  split_and!; [vm_compute; reflexivity|done|done|vm_compute; reflexivity].
Defined.

Lemma Call_agent_no_return_witness :
  reached texts0 exMute orderQ tt inputsQ 0 [] tt [] /\
  Call texts0 exMute orderQ tt =
    Ok (nilmap, Some ErrAgentNoReturn) tt
       ([] ++ [EvPlan [] inputsQ [] None None]).
Proof.
  split; [exact mute_reached|].
  exact (Call_agent_no_return texts0 exMute orderQ tt inputsQ 0 [] tt [] tt
           mute_reached eq_refl).
Defined.

Lemma broken_reached : reached texts0 exBroken orderQ tt inputsQ 0 [] tt [].
Proof.
  split_and!; [vm_compute; reflexivity|done|done|vm_compute; reflexivity].
Defined.

Lemma Call_planner_error_witness :
  reached texts0 exBroken orderQ tt inputsQ 0 [] tt [] /\
  errors_Is rateLimited ErrUnableToParseOutput = false /\
  Call texts0 exBroken orderQ tt =
    Ok (nilmap, Some rateLimited) tt
       ([] ++ [EvPlan [] inputsQ [calcAction] (Some finish4)
                      (Some rateLimited)]).
Proof.
  split_and!; [exact broken_reached|reflexivity|].
  exact (Call_planner_error texts0 exBroken orderQ tt inputsQ 0 [] tt [] tt
           [calcAction] (Some finish4) rateLimited broken_reached
           eq_refl eq_refl).
Defined.

Lemma geographer_reached :
  reached texts0 exGeographer orderQ tt inputsQ 1 [parisStep] tt
          geographerTrace1.
Proof.
  split_and!; [vm_compute; reflexivity|done|done|vm_compute; reflexivity].
Defined.

Lemma Call_finish_outputs_witness :
  reached texts0 exGeographer orderQ tt inputsQ 1 [parisStep] tt
          geographerTrace1 /\
  exists outputs w' tr,
    Call texts0 exGeographer orderQ tt = Ok (outputs, None) w' tr /\
    go_lookup outputs "intermediateSteps" = None /\
    go_lookup outputs "output" = Some (schema.AnyString "Paris") /\
    count is_tool_call tr = count is_tool_call geographerTrace1.
Proof.
  split; [exact geographer_reached|].
  destruct (Call_finish_outputs texts0 exGeographer orderQ tt inputsQ 1
              [parisStep] tt geographerTrace1 tt [] finishParis
              {[ "output" := schema.AnyString "Paris" ]}
              geographer_reached eq_refl eq_refl)
    as (outputs & w' & tr & Hcall & Hsteps & Hother & Htools & _).
  exists outputs, w', tr.
  split_and!; [exact Hcall|exact Hsteps| |exact Htools].
  rewrite (Hother "output"); [reflexivity|discriminate].
Defined.

Lemma Call_success_is_a_finish_witness :
  exists outputs w' tr tr0 steps inputs actions finish m,
    Call texts0 exGeographer orderQ tt = Ok (outputs, None) w' tr /\
    schema.ReturnValues finish = mkmap m /\
    outputs = mkmap (finishOutputs exGeographer m steps) /\
    tr = tr0 ++ EvPlan steps inputs actions (Some finish) None
             :: notifyFinish exGeographer finish steps.
Proof.
  destruct (Call_success_is_a_finish texts0 exGeographer orderQ tt _ _ _
              geographer_run)
    as (tr0 & steps & inputs & actions & finish & m & Hm & Hout & Htr).
  eexists _, _, _, tr0, steps, inputs, actions, finish, m.
  split_and!; [exact geographer_run|exact Hm|exact Hout|exact Htr].
Defined.

Lemma Call_error_outputs_witness :
  exists outputs w' tr,
    Call texts0 exWanderer orderQ tt = Ok (outputs, Some ErrNotFinished) w' tr /\
    (outputs = nilmap \/
     (ErrNotFinished = ErrNotFinished /\
      exists steps, outputs = exhaustedOutputs exWanderer steps /\
        exists tr0, tr = tr0 ++ notifyNotFinished texts0 exWanderer steps)).
Proof.
  eexists _, _, _. split; [exact wanderer_run|].
  exact (Call_error_outputs texts0 exWanderer orderQ tt _ _ _ _ wanderer_run).
Defined.



Lemma Call_plans_with_inputs_witness :
  ranges inputsValuesQ orderQ /\
  Forall (planned_with (omap assert_string inputsValuesQ))
         (trace_of (Call texts0 exRepeater orderQ tt)).
Proof.
  split; [exact question_ranges|].
  exact (Call_plans_with_inputs texts0 exRepeater inputsValuesQ orderQ tt
           question_ranges).
Defined.

Lemma inputsToString_all_strings_witness :
  ranges inputsValuesQ orderQ /\
  inputsToString texts0 orderQ = inl (omap assert_string inputsValuesQ).
Proof.
  split; [exact question_ranges|].
  exact (inputsToString_all_strings texts0 inputsValuesQ orderQ
           question_ranges question_strings).
Defined.

Lemma wrapped_question_ranges : ranges (schema.AnyString <$> inputsQ) orderQ.
Proof.
  unfold ranges, inputsQ, orderQ.
  by rewrite map_fmap_singleton, map_to_list_singleton.
Defined.

Lemma inputsToString_round_trip_witness :
  ranges (schema.AnyString <$> inputsQ) orderQ /\
  inputsToString texts0 orderQ = inl inputsQ.
Proof.
  split; [exact wrapped_question_ranges|].
  exact (inputsToString_round_trip texts0 inputsQ orderQ
           wrapped_question_ranges).
Defined.

Lemma repeater_last_round :
  reached texts0 exRepeater orderQ tt inputsQ (MaxIterations exRepeater - 1)
          repeaterLedger2 tt repeaterTrace2.
Proof.
  split_and!; [vm_compute; reflexivity|done|done|vm_compute; reflexivity].
Defined.

Lemma last_round_sees_the_hint_witness :
  reached texts0 exRepeater orderQ tt inputsQ (MaxIterations exRepeater - 1)
          repeaterLedger2 tt repeaterTrace2 /\
  2 < MaxIterations exRepeater /\
  exists steps', repeaterLedger2 = steps' ++ [lastChanceStep].
Proof.
  assert (2 < MaxIterations exRepeater) as Hmax by done.
  split_and!; [exact repeater_last_round|exact Hmax|].
  exact (proj1 (last_round_sees_the_hint texts0 exRepeater orderQ tt inputsQ
                  repeaterLedger2 tt repeaterTrace2 repeater_last_round Hmax)).
Defined.



Lemma calc_dispatched :
  doAction exRepeater [] (getNameToTool (GetTools (ExAgent exRepeater)))
           calcAction tt
  = Ok ([calcStep], None) tt [EvToolCall "calc" [] "2+2" "4" None].
Proof. vm_compute. reflexivity. Defined.

Lemma dispatched_action_is_not_dispatched_again_witness :
  doAction exRepeater [] (getNameToTool (GetTools (ExAgent exRepeater)))
           calcAction tt
  = Ok ([calcStep], None) tt [EvToolCall "calc" [] "2+2" "4" None] /\
  [calcStep] `prefix_of` [calcStep; fooStep] /\
  checkRepeatedAction [calcStep; fooStep] calcAgain =
    ([calcStep; fooStep] ++ [repeatedStep calcAgain],
     Some (Errorf ("repeated action: " +:+ schema.Tool calcAgain))).
Proof.
  assert ([calcStep] `prefix_of` [calcStep; fooStep]) as Hlater
    by (by exists [fooStep]).
  split_and!; [exact calc_dispatched|exact Hlater|].
  exact (proj1 (dispatched_action_is_not_dispatched_again exRepeater []
                  (getNameToTool (GetTools (ExAgent exRepeater))) calcAction
                  tt [calcStep] tt _ [calcStep; fooStep] calcAgain
                  calc_dispatched Hlater eq_refl eq_refl)).
Defined.

Lemma searcher_trace :
  trace_of (Call texts0 exSearcher orderQ tt)
  = searcherTrace ++ searchFailed :: [].
Proof. vm_compute. reflexivity. Defined.

Lemma Call_stops_at_failed_tool_witness :
  trace_of (Call texts0 exSearcher orderQ tt)
  = searcherTrace ++ searchFailed :: [] /\
  tool_failed searchFailed = true /\
  tools_ok searcherTrace /\
  exists err w',
    tool_error searchFailed = Some err /\
    Call texts0 exSearcher orderQ tt
    = Ok (nilmap, Some err) w' (searcherTrace ++ [searchFailed]).
Proof.
  split_and!; [exact searcher_trace|reflexivity| |].
  - exact (proj1 (proj2 (Call_stops_at_failed_tool texts0 exSearcher orderQ tt
                           searcherTrace searchFailed [] searcher_trace
                           eq_refl))).
  - exact (proj2 (proj2 (Call_stops_at_failed_tool texts0 exSearcher orderQ tt
                           searcherTrace searchFailed [] searcher_trace
                           eq_refl))).
Defined.

Lemma drifter_last_round :
  reached texts0 exDrifter orderQ tt inputsQ (MaxIterations exDrifter - 1)
          drifterLedger tt drifterTrace.
Proof.
  split_and!; [vm_compute; reflexivity|done|done|vm_compute; reflexivity].
Defined.

Lemma empty_action_repeats_the_hint_witness :
  reached texts0 exDrifter orderQ tt inputsQ (MaxIterations exDrifter - 1)
          drifterLedger tt drifterTrace /\
  2 < MaxIterations exDrifter /\
  Call texts0 exDrifter orderQ tt =
    Ok (exhaustedOutputs exDrifter (drifterLedger ++ [repeatedStep blankAction]),
        Some ErrNotFinished)
       (notifiedWorld texts0 exDrifter
          (drifterLedger ++ [repeatedStep blankAction]) tt)
       (drifterTrace
          ++ [EvPlan drifterLedger inputsQ [blankAction; calcAction] None None]
          ++ notifyNotFinished texts0 exDrifter
               (drifterLedger ++ [repeatedStep blankAction])).
Proof.
  assert (2 < MaxIterations exDrifter) as Hmax by done.
  split_and!; [exact drifter_last_round|exact Hmax|].
  exact (proj2 (empty_action_repeats_the_hint texts0 exDrifter orderQ tt
                  inputsQ drifterLedger tt drifterTrace tt blankAction
                  [calcAction] drifter_last_round Hmax eq_refl eq_refl
                  eq_refl)).
Defined.

(** * Properties of the thinking transport *)

(** ** [strings.Contains] *)

Lemma HasPrefix_spec s prefix :
  HasPrefix s prefix = true <-> exists post, s = prefix +:+ post.
Proof.
  revert s. induction prefix as [|c prefix IH]; intros s; simpl.
  - split; [intros _; by exists s|done].
  - destruct s as [|d s]; simpl.
    + split; [done|]. by intros [post [=]].
    + rewrite andb_true_iff, IH. split.
      * intros [Hc [post ->]]. apply Ascii.eqb_eq in Hc as ->. by exists post.
      * intros [post [= -> ->]]. split; [apply Ascii.eqb_refl|by exists post].
Qed.

(** [Contains s substr] holds iff [substr] occurs in [s]. *)
Lemma Contains_spec s substr :
  Contains s substr = true <-> exists pre post, s = pre +:+ substr +:+ post.
Proof.
  induction s as [|d s IH]; simpl.
  - rewrite orb_false_r, HasPrefix_spec. split.
    + intros [post H]. by exists "", post.
    + intros ([|c pre] & post & H); [by exists post|done].
  - rewrite orb_true_iff, HasPrefix_spec, IH. split.
    + intros [[post H]|(pre & post & ->)].
      * by exists "", post.
      * by exists (String d pre), post.
    + intros ([|c pre] & post & H).
      * left. by exists post.
      * right. injection H as -> ->. by exists pre, post.
Qed.

(** ** The change made to the decoded request *)

Lemma addThinkingConfig_mkmap (data : gmap string googleai.json) :
  googleai.addThinkingConfig (mkmap data) = Some (mkmap (withThinking data)).
Proof.
  unfold googleai.addThinkingConfig, withThinking. simpl.
  destruct (data !! "generationConfig") as [[]|] eqn:Hgc; simpl;
    rewrite ?lookup_insert_eq, ?Hgc; try done.
  all: by rewrite insert_insert_eq, insert_empty.
Qed.

(** X17.  A decoded request whose generation config is missing, null or an
    object gets a generation config that is an object with the thinking
    config [{"thinkingBudget": -1}] in it; the other entries of the
    generation config and the other entries of the request are kept.  A
    generation config of another kind is left alone, and so is the
    request. *)
Theorem addThinkingConfig_result (data data' : gmap string googleai.json) :
  googleai.addThinkingConfig (mkmap data) = Some (mkmap data') ->
  (forall key, key <> "generationConfig" -> data' !! key = data !! key) /\
  match data !! "generationConfig" with
  | None | Some googleai.JNull =>
      generationConfig data'
      = Some {[ "thinkingConfig" := googleai.thinkingConfig ]}
  | Some (googleai.JObject genConfig) =>
      exists genConfig',
        generationConfig data' = Some genConfig' /\
        genConfig' !! "thinkingConfig" = Some googleai.thinkingConfig /\
        forall key, key <> "thinkingConfig" ->
                    genConfig' !! key = genConfig !! key
  | Some _ => data' = data
  end.
Proof.
  rewrite addThinkingConfig_mkmap. intros [= <-].
  unfold withThinking, generationConfig.
  destruct (data !! "generationConfig") as [[]|] eqn:Hgc;
    rewrite ?lookup_insert_eq; (split; [|try done]);
    try (intros key Hkey; by rewrite ?lookup_insert_ne).
  eexists. split_and!; [done|by rewrite lookup_insert_eq|].
  intros key Hkey. by rewrite lookup_insert_ne.
Qed.

(** X18.  Making the change twice is making it once. *)
Theorem addThinkingConfig_idempotent (requestData : gomap googleai.json) :
  googleai.addThinkingConfig requestData ≫= googleai.addThinkingConfig
  = googleai.addThinkingConfig requestData.
Proof.
  destruct requestData as [|data]; [done|].
  rewrite addThinkingConfig_mkmap. simpl. rewrite addThinkingConfig_mkmap.
  do 2 f_equal. unfold withThinking.
  destruct (data !! "generationConfig") as [[]|] eqn:Hgc;
    rewrite ?lookup_insert_eq, ?Hgc, ?insert_insert_eq; try done.
  all: by rewrite insert_singleton_eq.
Qed.

(** ** The request handed to the base transport *)

Section TransportFacts.
Context {Body Other Result : Type}.
Context (ReadAll : Body -> Body * option string).
Context (NewBuffer : string -> Body).
Context (Unmarshal : string -> option (gomap googleai.json)).
Context (Marshal : gomap googleai.json -> option string).

Implicit Types (t : googleai.thinkingTransport Body Other Result)
  (req : googleai.Request Body Other).

(** X19.  A request is handed on as it is when dynamic thinking is off, when
    its path does not hold "generateContent", or when it has no body. *)
Theorem RoundTrip_untouched t req :
  googleai.dynamicThinking t = false \/
  (forall pre post,
     googleai.Path req <> pre +:+ "generateContent" +:+ post) \/
  googleai.ReqBody req = None ->
  googleai.RoundTrip ReadAll NewBuffer Unmarshal Marshal t req = Some (googleai.base t req).
Proof.
  unfold googleai.RoundTrip. intros [->|[Hpath| ->]]; [done| |].
  - destruct (Contains (googleai.Path req) "generateContent") eqn:Hc.
    + apply Contains_spec in Hc as (pre & post & Hc). by destruct (Hpath pre post).
    + by rewrite andb_false_r.
  - by destruct (_ && _).
Qed.

(** X20.  A request to a generateContent endpoint whose body is read and
    decoded to an object is handed on with the encoding of the changed
    object as its body and the length of that encoding as its content
    length. *)
Theorem RoundTrip_rewrites t req pre post body body' bodyBytes data
    modifiedBody :
  googleai.dynamicThinking t = true ->
  googleai.Path req = pre +:+ "generateContent" +:+ post ->
  googleai.ReqBody req = Some body ->
  ReadAll body = (body', Some bodyBytes) ->
  Unmarshal bodyBytes = Some (mkmap data) ->
  Marshal (mkmap (withThinking data)) = Some modifiedBody ->
  googleai.RoundTrip ReadAll NewBuffer Unmarshal Marshal t req =
    Some (googleai.base t
            (googleai.mkRequest (googleai.Path req)
               (Some (NewBuffer modifiedBody))
               (Z.of_nat (String.length modifiedBody))
               (googleai.Rest req))).
Proof.
  intros Hdyn Hpath Hbody Hread Hdec Henc. unfold googleai.RoundTrip.
  rewrite Hdyn. replace (Contains (googleai.Path req) "generateContent")
    with true by (symmetry; apply Contains_spec; by exists pre, post).
  simpl. by rewrite Hbody, Hread, Hdec, addThinkingConfig_mkmap, Henc.
Qed.

(** X21.  When the body cannot be decoded, or the changed object cannot be
    encoded, the request is handed on with the bytes that were read as
    its body and its content length as it was; when the body cannot be
    read, it is handed on with the reader as the read left it. *)
Theorem RoundTrip_falls_back t req pre post body body' read :
  googleai.dynamicThinking t = true ->
  googleai.Path req = pre +:+ "generateContent" +:+ post ->
  googleai.ReqBody req = Some body ->
  ReadAll body = (body', read) ->
  match read with
  | None =>
      googleai.RoundTrip ReadAll NewBuffer Unmarshal Marshal t req = Some (googleai.base t (googleai.withBody req body'))
  | Some bodyBytes =>
      (Unmarshal bodyBytes = None \/
       exists data, Unmarshal bodyBytes = Some (mkmap data) /\
                    Marshal (mkmap (withThinking data)) = None) ->
      googleai.RoundTrip ReadAll NewBuffer Unmarshal Marshal t req =
        Some (googleai.base t
                (googleai.withBody req (NewBuffer bodyBytes)))
  end.
Proof.
  intros Hdyn Hpath Hbody Hread. unfold googleai.RoundTrip.
  rewrite Hdyn. replace (Contains (googleai.Path req) "generateContent")
    with true by (symmetry; apply Contains_spec; by exists pre, post).
  simpl. rewrite Hbody, Hread. destruct read as [bodyBytes|]; [|done].
  intros [->|(data & -> & Henc)]; [done|].
  by rewrite addThinkingConfig_mkmap, Henc.
Qed.


End TransportFacts.


(** ** The thinking transport at work *)

(** The tests of the transport, on the toy codec: the empty object gets a
    generation config with the thinking config; a request that counts
    tokens, and any request when thinking is off, goes through as it
    is. *)
Example thinker_run :
  googleai.RoundTrip readString id decodeToy encodeToy thinker
                     emptyObjectRequest
  = Some (googleai.mkRequest generatePath
            (Some "{generationConfig:{thinkingConfig:{thinkingBudget:-1}}}")
            55 tt).
Proof. vm_compute. reflexivity. Qed.

Lemma addThinkingConfig_result_witness :
  googleai.addThinkingConfig (mkmap plainData)
    = Some (mkmap (withThinking plainData)) /\
  (forall key, key <> "generationConfig" ->
               withThinking plainData !! key = plainData !! key) /\
  generationConfig (withThinking plainData)
  = Some {[ "thinkingConfig" := googleai.thinkingConfig ]}.
Proof.
  assert (googleai.addThinkingConfig (mkmap plainData)
          = Some (mkmap (withThinking plainData))) as Hrun
    by (vm_compute; reflexivity).
  destruct (addThinkingConfig_result plainData (withThinking plainData) Hrun)
    as [Hkeep Hconfig].
  split_and!; [exact Hrun|exact Hkeep|exact Hconfig].
Defined.

Lemma RoundTrip_untouched_witness :
  googleai.RoundTrip readString id decodeToy encodeToy idler emptyObjectRequest
    = Some (googleai.base idler emptyObjectRequest) /\
  googleai.RoundTrip readString id decodeToy encodeToy thinker countRequest
    = Some (googleai.base thinker countRequest).
Proof.
  split.
  - exact (RoundTrip_untouched readString id decodeToy encodeToy idler
             emptyObjectRequest (or_introl eq_refl)).
  - apply (RoundTrip_untouched readString id decodeToy encodeToy thinker
             countRequest).
    right. left. intros pre post Hpath.
    assert (Contains countPath "generateContent" = true) as Hc
      by (apply Contains_spec; by exists pre, post).
    vm_compute in Hc. discriminate Hc.
Defined.

Lemma RoundTrip_rewrites_witness :
  googleai.Path emptyObjectRequest
    = "/v1beta/models/gemini-pro:" +:+ "generateContent" +:+ "" /\
  decodeToy "{}" = Some (mkmap ∅) /\
  encodeToy (mkmap (withThinking ∅))
    = Some "{generationConfig:{thinkingConfig:{thinkingBudget:-1}}}" /\
  googleai.RoundTrip readString id decodeToy encodeToy thinker
                     emptyObjectRequest
  = Some (googleai.base thinker
            (googleai.mkRequest (googleai.Path emptyObjectRequest)
               (Some (id "{generationConfig:{thinkingConfig:{thinkingBudget:-1}}}"))
               (Z.of_nat
                  (String.length
                     "{generationConfig:{thinkingConfig:{thinkingBudget:-1}}}"))
               (googleai.Rest emptyObjectRequest))).
Proof.
  assert (encodeToy (mkmap (withThinking ∅))
          = Some "{generationConfig:{thinkingConfig:{thinkingBudget:-1}}}")
    as Henc by (vm_compute; reflexivity).
  split_and!; [reflexivity|reflexivity|exact Henc|].
  exact (RoundTrip_rewrites readString id decodeToy encodeToy thinker
           emptyObjectRequest "/v1beta/models/gemini-pro:" "" "{}" "" "{}" ∅
           _ eq_refl eq_refl eq_refl eq_refl eq_refl Henc).
Defined.

Lemma RoundTrip_falls_back_witness :
  decodeToy "{oops" = None /\
  googleai.RoundTrip readString id decodeToy encodeToy thinker brokenRequest
  = Some (googleai.base thinker (googleai.withBody brokenRequest (id "{oops"))).
Proof.
  split; [reflexivity|].
  exact (RoundTrip_falls_back readString id decodeToy encodeToy thinker
           brokenRequest "/v1beta/models/gemini-pro:" "" "{oops" ""
           (Some "{oops") eq_refl eq_refl eq_refl eq_refl
           (or_introl eq_refl)).
Defined.

